(** * eduOS (32-bit x86): paging constants, CPU feature record, system-call numbers

    A shallow embedding of
      - [arch/x86/include/asm/page.h]      (module [Page]),
      - [arch/x86/include/asm/processor.h] (module [Processor]),
      - [include/eduos/syscall.h]          (module [Syscall]),
    together with a model of the Address Space Manager whose implementation
    file is not part of the sources at hand (module [Paging]).

    C objects of type [size_t], [uint32_t], [int] and [long] are integers of
    [Z]; every wrap-around and every integer conversion of the i386 target
    is written out. *)

From Stdlib Require Import ZArith Lia.
From stdpp Require Import base numbers option list gmap.

Local Open Scope Z_scope.

(** ** Integer arithmetic of the i386 target (ILP32) *)
Module CInt.

(** Conversion to a 32-bit unsigned type ([size_t], [uint32_t],
    [unsigned long]). *)
Definition u32 (x : Z) : Z := x mod 2^32.

(** Conversion to a 32-bit signed type ([int], [long]), two's complement. *)
Definition s32 (x : Z) : Z := (x + 2^31) mod 2^32 - 2^31.

(** [a << k] on [int] operands, as gcc evaluates it. *)
Definition shl_int (a k : Z) : Z := s32 (Z.shiftl a k).

(** [a << k] on a [long] left operand ([1L << k]); [long] is 32 bits wide. *)
Definition shl_long (a k : Z) : Z := s32 (Z.shiftl a k).

(** [a + b], [a - b] and [a & b] when one operand is a 32-bit unsigned
    type: the usual arithmetic conversions take both operands to it. *)
Definition add_u32 (a b : Z) : Z := u32 (u32 a + u32 b).
Definition sub_u32 (a b : Z) : Z := u32 (u32 a - u32 b).
Definition and_u32 (a b : Z) : Z := Z.land (u32 a) (u32 b).

End CInt.

(** ** arch/x86/include/asm/page.h *)
Module Page.
Import CInt.

(** Page offset bits *)
Definition PAGE_BITS : Z := 12.
(** The size of a single page in bytes *)
Definition PAGE_SIZE : Z := shl_long 1 PAGE_BITS.

(** Total operand width in bits *)
Definition BITS : Z := 32.
(** Linear/virtual address width *)
Definition VIRT_BITS : Z := BITS.
(** Physical address width *)
Definition PHYS_BITS : Z := BITS.
(** Page map bits *)
Definition PAGE_MAP_BITS : Z := 10.
(** Number of page map indirections *)
Definition PAGE_MAP_LEVELS : Z := 2.
(** Mask the page address without page map flags *)
Definition PAGE_MASK : Z := 0xFFFFF000.

(** Make address canonical (only for 32 bit paging) *)
Definition CANONICAL (addr : Z) : Z := addr.

(** The number of entries in a page map table *)
Definition PAGE_MAP_ENTRIES : Z := shl_long 1 PAGE_MAP_BITS.

(** Base addresses of the self-mapped pagetables *)
Definition PAGE_MAP_PGD : Z := 0xFFFFF000.
Definition PAGE_MAP_PGT : Z := 0xFFC00000.

(** Align to next page: [(((addr) + PAGE_SIZE - 1) & PAGE_MASK)], for an
    [addr] of type [size_t]. *)
Definition PAGE_FLOOR (addr : Z) : Z :=
  and_u32 (sub_u32 (add_u32 addr PAGE_SIZE) 1) PAGE_MASK.
(** Align to page: [((addr) & PAGE_MASK)]. *)
Definition PAGE_CEIL (addr : Z) : Z := and_u32 addr PAGE_MASK.

(** Page is present *)
Definition PG_PRESENT : Z := shl_int 1 0.
(** Page is read- and writable *)
Definition PG_RW : Z := shl_int 1 1.
(** Page is addressable from userspace *)
Definition PG_USER : Z := shl_int 1 2.
(** Page write through is activated *)
Definition PG_PWT : Z := shl_int 1 3.
(** Page cache is disabled *)
Definition PG_PCD : Z := shl_int 1 4.
(** Page was recently accessed (set by CPU) *)
Definition PG_ACCESSED : Z := shl_int 1 5.
(** Page is dirty due to recent write-access (set by CPU) *)
Definition PG_DIRTY : Z := shl_int 1 6.
(** Huge page: 4MB (or 2MB, 1GB) *)
Definition PG_PSE : Z := shl_int 1 7.
(** Page attribute table *)
Definition PG_PAT : Z := PG_PSE.
(** Global TLB entry (Pentium Pro and later) *)
Definition PG_GLOBAL : Z := shl_int 1 8.
(** This page or table is used during the boot process *)
Definition PG_BOOT : Z := shl_int 1 9.

(** A single entry in a page map: [typedef size_t page_entry_t]. *)
Definition page_entry_t : Type := Z.

(** *** Vocabulary for statements about the header

    The header fixes the widths only; the fields they cut out of an address
    or an Entry are named here so that the theorems can speak about them. *)

(** The ten Entry flag masks, in the order of their definition ([PG_PAT]
    is the eleventh name and no mask of its own). *)
Definition entry_flag_masks : list Z :=
  [PG_PRESENT; PG_RW; PG_USER; PG_PWT; PG_PCD;
   PG_ACCESSED; PG_DIRTY; PG_PSE; PG_GLOBAL; PG_BOOT].

(** An Entry carries the flag [mask]: [(entry & mask) != 0]. *)
Definition has_flag (mask : Z) (entry : page_entry_t) : bool :=
  negb (and_u32 entry mask =? 0).

(** [width] bits of [addr] from bit [lo] upwards. *)
Definition bit_field (lo width addr : Z) : Z :=
  Z.land (Z.shiftr addr lo) (Z.ones width).

(** Directory index: the topmost [PAGE_MAP_BITS] bits below [VIRT_BITS]. *)
Definition pgd_index (addr : Z) : Z :=
  bit_field (PAGE_BITS + PAGE_MAP_BITS) PAGE_MAP_BITS addr.
(** Table index: the [PAGE_MAP_BITS] bits above the page offset. *)
Definition pgt_index (addr : Z) : Z :=
  bit_field PAGE_BITS PAGE_MAP_BITS addr.
(** In-page offset: the low [PAGE_BITS] bits. *)
Definition page_offset (addr : Z) : Z :=
  bit_field 0 PAGE_BITS addr.

(** The address with the given directory index, table index and offset. *)
Definition join_address (d t o : Z) : Z :=
  Z.lor (Z.lor (Z.shiftl d (PAGE_BITS + PAGE_MAP_BITS)) (Z.shiftl t PAGE_BITS)) o.

(** [addr] is a multiple of the page size. *)
Definition page_aligned (addr : Z) : Prop := addr mod PAGE_SIZE = 0.

(** The virtual address at which the self-map window shows the second-level
    Table of directory index [d]. *)
Definition pgt_window (d : Z) : Z := PAGE_MAP_PGT + d * PAGE_SIZE.

End Page.

(** ** arch/x86/include/asm/processor.h *)
Module Processor.
Import CInt.

(** feature list 1 *)
Definition CPU_FEATURE_FPU : Z := shl_int 1 0.
Definition CPU_FEATURE_MSR : Z := shl_int 1 5.
Definition CPU_FEATURE_APIC : Z := shl_int 1 9.
Definition CPU_FEATURE_MMX : Z := shl_int 1 23.
Definition CPU_FEATURE_FXSR : Z := shl_int 1 24.
Definition CPU_FEATURE_SSE : Z := shl_int 1 25.
Definition CPU_FEATURE_SSE2 : Z := shl_int 1 26.

(** feature list 2 *)
Definition CPU_FEATURE_X2APIC : Z := shl_int 1 21.
Definition CPU_FEATURE_AVX : Z := shl_int 1 28.
Definition CPU_FEATURE_HYPERVISOR : Z := shl_int 1 31.

Record cpu_info_t : Type := { feature1 : Z; feature2 : Z }.

(** What the inline functions of the header can reach: the global
    [cpu_info] and the control registers. *)
Record machine : Type := {
  cpu_info : cpu_info_t;
  cr0 : Z;
  cr2 : Z;
  cr3 : Z;
  cr4 : Z
}.

(** A C function over the machine: its result and the machine it leaves. *)
Definition M (A : Type) : Type := machine -> A * machine.

Definition ret {A} (a : A) : M A := fun m => (a, m).
Definition bind {A B} (c : M A) (k : A -> M B) : M B :=
  fun m => let (a, m1) := c m in k a m1.
(** Reading the global [cpu_info]. *)
Definition load_cpu_info : M cpu_info_t := fun m => (cpu_info m, m).

Definition has_fpu : M Z :=
  bind load_cpu_info (fun ci => ret (and_u32 (feature1 ci) CPU_FEATURE_FPU)).

Definition has_msr : M Z :=
  bind load_cpu_info (fun ci => ret (and_u32 (feature1 ci) CPU_FEATURE_MSR)).

Definition has_apic : M Z :=
  bind load_cpu_info (fun ci => ret (and_u32 (feature1 ci) CPU_FEATURE_APIC)).

Definition has_fxsr : M Z :=
  bind load_cpu_info (fun ci => ret (and_u32 (feature1 ci) CPU_FEATURE_FXSR)).

Definition has_sse : M Z :=
  bind load_cpu_info (fun ci => ret (and_u32 (feature1 ci) CPU_FEATURE_SSE)).

Definition has_sse2 : M Z :=
  bind load_cpu_info (fun ci => ret (and_u32 (feature1 ci) CPU_FEATURE_SSE2)).

Definition has_x2apic : M Z :=
  bind load_cpu_info (fun ci => ret (and_u32 (feature2 ci) CPU_FEATURE_X2APIC)).

Definition has_avx : M Z :=
  bind load_cpu_info (fun ci => ret (and_u32 (feature2 ci) CPU_FEATURE_AVX)).

Definition on_hypervisor : M Z :=
  bind load_cpu_info (fun ci => ret (and_u32 (feature2 ci) CPU_FEATURE_HYPERVISOR)).

(** Control register access ([mov %%crN, %0] and [mov %0, %%crN]). *)
Definition read_cr0 : M Z := fun m => (cr0 m, m).
Definition write_cr0 (val : Z) : M unit := fun m =>
  (tt, {| cpu_info := cpu_info m; cr0 := u32 val; cr2 := cr2 m; cr3 := cr3 m; cr4 := cr4 m |}).
Definition read_cr2 : M Z := fun m => (cr2 m, m).
Definition write_cr2 (val : Z) : M unit := fun m =>
  (tt, {| cpu_info := cpu_info m; cr0 := cr0 m; cr2 := u32 val; cr3 := cr3 m; cr4 := cr4 m |}).
Definition read_cr3 : M Z := fun m => (cr3 m, m).
Definition write_cr3 (val : Z) : M unit := fun m =>
  (tt, {| cpu_info := cpu_info m; cr0 := cr0 m; cr2 := cr2 m; cr3 := u32 val; cr4 := cr4 m |}).
Definition read_cr4 : M Z := fun m => (cr4 m, m).
Definition write_cr4 (val : Z) : M unit := fun m =>
  (tt, {| cpu_info := cpu_info m; cr0 := cr0 m; cr2 := cr2 m; cr3 := cr3 m; cr4 := u32 val |}).

(** A feature accessor [acc] is a read-only function of [cpu_info] that
    reports bit [bit] of the record field [field]. *)
Definition reads_feature_bit (acc : M Z) (field : cpu_info_t -> Z) (bit : Z) : Prop :=
  forall m : machine,
    snd (acc m) = m /\
    (forall m' : machine, cpu_info m' = cpu_info m -> fst (acc m') = fst (acc m)) /\
    (fst (acc m) <> 0 <-> Z.testbit (field (cpu_info m)) bit = true).

End Processor.

(** ** include/eduos/syscall.h *)
Module Syscall.

Definition __NR_exit : Z := 0.
Definition __NR_write : Z := 1.
Definition __NR_open : Z := 2.
Definition __NR_close : Z := 3.
Definition __NR_read : Z := 4.
Definition __NR_lseek : Z := 6.
Definition __NR_unlink : Z := 7.
Definition __NR_getpid : Z := 8.
Definition __NR_kill : Z := 9.
Definition __NR_fstat : Z := 10.
Definition __NR_sbrk : Z := 11.
Definition __NR_fork : Z := 12.
Definition __NR_wait : Z := 13.
Definition __NR_execve : Z := 14.
Definition __NR_times : Z := 15.
Definition __NR_accept : Z := 16.
Definition __NR_bind : Z := 17.
Definition __NR_closesocket : Z := 18.
Definition __NR_connect : Z := 19.
Definition __NR_listen : Z := 20.
Definition __NR_recv : Z := 21.
Definition __NR_send : Z := 22.
Definition __NR_socket : Z := 23.
Definition __NR_getsockopt : Z := 24.
Definition __NR_setsockopt : Z := 25.
Definition __NR_gethostbyname : Z := 26.
Definition __NR_sendto : Z := 27.
Definition __NR_recvfrom : Z := 28.
Definition __NR_select : Z := 29.
Definition __NR_stat : Z := 30.
Definition __NR_dup : Z := 31.
Definition __NR_dup2 : Z := 32.

(** Every constant of the header, in the order of definition. *)
Definition syscall_numbers : list Z :=
  [__NR_exit; __NR_write; __NR_open; __NR_close; __NR_read; __NR_lseek;
   __NR_unlink; __NR_getpid; __NR_kill; __NR_fstat; __NR_sbrk; __NR_fork;
   __NR_wait; __NR_execve; __NR_times; __NR_accept; __NR_bind;
   __NR_closesocket; __NR_connect; __NR_listen; __NR_recv; __NR_send;
   __NR_socket; __NR_getsockopt; __NR_setsockopt; __NR_gethostbyname;
   __NR_sendto; __NR_recvfrom; __NR_select; __NR_stat; __NR_dup; __NR_dup2].

End Syscall.

(** ** The Address Space Manager

    [page.h] declares [page_map], [page_unmap], [page_map_drop] and
    [virt_to_phys]; the file that defines them is not among the sources.
    The definitions of this module follow the specification's description
    of each operation (its sections 3, 4.1 and 7). The translation cache is
    no part of the state: [virt_to_phys] walks the page maps themselves. *)
Module Paging.
Import CInt Page.

(** Modelled from the spec: the status kinds of section 7 (success,
    allocation failure, not-present translation, misaligned argument,
    unsupported feature); the header only gives the return type [int]. *)
Inductive status : Type :=
  | Success
  | AllocationFailure
  | NotPresent
  | Misaligned
  | UnsupportedFeature.

(** Modelled from the spec: the result of [virt_to_phys], a physical
    address or a signalled failure. *)
Inductive translation : Type :=
  | Translated (phyaddr : Z)
  | Failed (why : status).

(** Modelled from the spec: the owner tag of a top-level entry, shared
    (kernel range) or exclusive (private/user range). *)
Inductive ownership : Type :=
  | Shared
  | Exclusive.

(** Modelled from the spec: the machine the Address Space Manager works
    on. [phys] is the physical memory that holds page maps, by frame base
    address and entry index (a word never written reads as the zero Entry);
    [root] is the frame of the active Directory; [free_frames] is the Frame
    Allocator, the frames it can still hand out. *)
Record state : Type := {
  phys : gmap Z (gmap Z Z);
  root : Z;
  free_frames : list Z
}.

(** Modelled from the spec: a store to physical memory leaves the active
    Directory and the Frame Allocator as they are. *)
Definition set_phys (m : gmap Z (gmap Z Z)) (s : state) : state :=
  {| phys := m; root := root s; free_frames := free_frames s |}.

(** Modelled from the spec: reading Entry [idx] of the page map in frame
    [frame], the access the Self-Map Window gives. *)
Definition read_entry (m : gmap Z (gmap Z Z)) (frame idx : Z) : page_entry_t :=
  default 0 (default ∅ (m !! frame) !! idx).

(** Modelled from the spec: writing Entry [idx] of the page map in frame
    [frame]. *)
Definition write_entry (m : gmap Z (gmap Z Z)) (frame idx : Z) (e : page_entry_t)
  : gmap Z (gmap Z Z) :=
  <[frame := <[idx := e]> (default ∅ (m !! frame))]> m.

(** Modelled from the spec: zeroing a fresh frame. *)
Definition zero_frame (m : gmap Z (gmap Z Z)) (frame : Z) : gmap Z (gmap Z Z) :=
  <[frame := ∅]> m.

(** Modelled from the spec: the physical base address an Entry encodes,
    its high-order bits. *)
Definition entry_frame (e : page_entry_t) : Z := and_u32 e PAGE_MASK.

(** Modelled from the spec: the test behind the misaligned-argument status,
    [(addr & (PAGE_SIZE - 1)) == 0]. *)
Definition aligned (addr : Z) : bool := and_u32 addr (PAGE_SIZE - 1) =? 0.

(** Modelled from the spec: the Frame Allocator's request. It supplies a
    frame, or fails at once when it has none. *)
Definition get_page (s : state) : option (Z * state) :=
  match free_frames s with
  | [] => None
  | f :: rest => Some (f, {| phys := phys s; root := root s; free_frames := rest |})
  end.

(** Modelled from the spec: the Frame Allocator's release. It accepts the
    frame back. *)
Definition put_page (f : Z) (s : state) : state :=
  {| phys := phys s; root := root s; free_frames := f :: free_frames s |}.

(** Modelled from the spec: [virt_to_phys]. Decompose the address, read the
    Directory entry, then the Table entry; if either is absent signal
    not-present, otherwise return the mapped base plus the in-page offset. *)
Definition virt_to_phys (viraddr : Z) (s : state) : translation :=
  let pde := read_entry (phys s) (root s) (pgd_index viraddr) in
  if has_flag PG_PRESENT pde then
    let pte := read_entry (phys s) (entry_frame pde) (pgt_index viraddr) in
    if has_flag PG_PRESENT pte then
      Translated (entry_frame pte + page_offset viraddr)
    else Failed NotPresent
  else Failed NotPresent.

(** Modelled from the spec: one page of [page_unmap]. Clear the present and
    address bits of the leaf Entry; a Table is never removed. *)
Definition unmap_page (viraddr : Z) (s : state) : state :=
  let pde := read_entry (phys s) (root s) (pgd_index viraddr) in
  if has_flag PG_PRESENT pde then
    let tbl := entry_frame pde in
    let old := read_entry (phys s) tbl (pgt_index viraddr) in
    set_phys (write_entry (phys s) tbl (pgt_index viraddr)
                (Z.ldiff old (Z.lor PAGE_MASK PG_PRESENT))) s
  else s.

(** Modelled from the spec: the pages of the range of [page_unmap], in
    ascending order. *)
Fixpoint unmap_pages (n : nat) (viraddr : Z) (s : state) : state :=
  match n with
  | O => s
  | S n' => unmap_pages n' (add_u32 viraddr PAGE_SIZE) (unmap_page viraddr s)
  end.

(** Modelled from the spec: [page_unmap(viraddr, pages)]. It reports a
    misaligned address and otherwise succeeds. *)
Definition page_unmap (viraddr pages : Z) (s : state) : status * state :=
  if aligned viraddr then (Success, unmap_pages (Z.to_nat pages) viraddr s)
  else (Misaligned, s).

(** The indices of a page map, 0 to [PAGE_MAP_ENTRIES - 1], in ascending
    order. *)
Definition page_map_indices : list Z := seqZ 0 PAGE_MAP_ENTRIES.

(** Modelled from the spec: releasing one leaf of a Table. The frame of a
    present leaf goes back to the Frame Allocator. *)
Definition drop_leaf (tbl : Z) (s : state) (t : Z) : state :=
  let e := read_entry (phys s) tbl t in
  if has_flag PG_PRESENT e then put_page (entry_frame e) s else s.

(** Modelled from the spec: releasing what one Table holds, every leaf
    frame and then the Table itself. *)
Definition drop_table (tbl : Z) (s : state) : state :=
  put_page tbl (foldl (drop_leaf tbl) s page_map_indices).

(** The frame a leaf Entry references, if it is present; the frames a
    Table references; and the frames a Directory slot references: its
    Table's leaves, then the Table. *)
Definition leaf_ref (m : gmap Z (gmap Z Z)) (tbl t : Z) : option Z :=
  let e := read_entry m tbl t in
  if has_flag PG_PRESENT e then Some (entry_frame e) else None.

Definition leaf_refs (m : gmap Z (gmap Z Z)) (tbl : Z) : list Z :=
  omap (leaf_ref m tbl) page_map_indices.

Definition slot_refs (m : gmap Z (gmap Z Z)) (map d : Z) : list Z :=
  let e := read_entry m map d in
  if has_flag PG_PRESENT e then leaf_refs m (entry_frame e) ++ [entry_frame e]
  else [].

(** The frames a Directory slot references when the recursive entry is
    taken for what it is: the entry that points back at the Directory
    references the Directory, and no frame through it; every other present
    entry references its Table and the Table's leaves. *)
Definition kept_refs (m : gmap Z (gmap Z Z)) (map d : Z) : list Z :=
  let e := read_entry m map d in
  if has_flag PG_PRESENT e && (entry_frame e =? map) then [map]
  else slot_refs m map d.

Section Model.

(** Modelled from the spec: the fixed split of the address space into the
    shared/kernel range and the private/user range, as the owner tag of
    each directory index. The split address itself is defined outside the
    sources at hand. *)
Variable owner : Z -> ownership.

(** Modelled from the spec: the flags of a freshly installed Table,
    present and writable, and user-accessible outside the kernel range. *)
Definition table_flags (d : Z) : Z :=
  match owner d with
  | Shared => Z.lor PG_PRESENT PG_RW
  | Exclusive => Z.lor (Z.lor PG_PRESENT PG_RW) PG_USER
  end.

(** Modelled from the spec: one page of [page_map]. If the Directory entry
    is absent, obtain a frame, zero it and install it as a new Table; then
    write the leaf Entry with the physical address and the requested flags,
    setting present. *)
Definition map_page (viraddr phyaddr flags : Z) (s : state) : status * state :=
  let d := pgd_index viraddr in
  let t := pgt_index viraddr in
  let leaf := Z.lor (Z.lor phyaddr flags) PG_PRESENT in
  let pde := read_entry (phys s) (root s) d in
  if has_flag PG_PRESENT pde then
    (Success, set_phys (write_entry (phys s) (entry_frame pde) t leaf) s)
  else
    match get_page s with
    | None => (AllocationFailure, s)
    | Some (f, s1) =>
        let m1 := zero_frame (phys s1) f in
        let m2 := write_entry m1 (root s1) d (Z.lor f (table_flags d)) in
        let tbl := entry_frame (read_entry m2 (root s1) d) in
        (Success, set_phys (write_entry m2 tbl t leaf) s1)
    end.

(** Modelled from the spec: the pages of the range of [page_map], in
    ascending order. A failed allocation stops the walk and leaves the
    pages processed so far mapped. *)
Fixpoint map_pages (n : nat) (viraddr phyaddr flags : Z) (s : state) : status * state :=
  match n with
  | O => (Success, s)
  | S n' =>
      match map_page viraddr phyaddr flags s with
      | (Success, s1) =>
          map_pages n' (add_u32 viraddr PAGE_SIZE) (add_u32 phyaddr PAGE_SIZE) flags s1
      | failure => failure
      end
  end.

(** Modelled from the spec: [page_map(viraddr, phyaddr, pages, flags)]. It
    reports a misaligned address, an allocation failure, or success. *)
Definition page_map (viraddr phyaddr pages flags : Z) (s : state) : status * state :=
  if aligned viraddr && aligned phyaddr then
    map_pages (Z.to_nat pages) viraddr phyaddr flags s
  else (Misaligned, s).

(** Modelled from the spec: one Directory entry of [page_map_drop]. A
    private/user-range entry releases what it holds; a shared/kernel-range
    entry is left alone. *)
Definition drop_slot (map : Z) (s : state) (d : Z) : state :=
  match owner d with
  | Shared => s
  | Exclusive =>
      let e := read_entry (phys s) map d in
      if has_flag PG_PRESENT e then drop_table (entry_frame e) s else s
  end.

(** Modelled from the spec: [page_map_drop(map)]. It walks every Directory
    entry of [map]. *)
Definition page_map_drop (map : Z) (s : state) : status * state :=
  (Success, foldl (drop_slot map) s page_map_indices).

(** Directory slot [d] has owner tag [o]. *)
Definition held_by (o : ownership) (d : Z) : bool :=
  match o, owner d with
  | Shared, Shared | Exclusive, Exclusive => true
  | _, _ => false
  end.

(** The references [map] holds through the directory slots with owner tag
    [o], one list element per reference. *)
Definition refs_of (o : ownership) (m : gmap Z (gmap Z Z)) (map : Z) : list Z :=
  concat (List.map (slot_refs m map)
            (List.filter (held_by o) page_map_indices)).

(** Frame [f] is referenced from the Table in frame [tbl]: one of the
    Table's 1024 leaf Entries is present and holds it. *)
Definition leaf_of (m : gmap Z (gmap Z Z)) (tbl f : Z) : Prop :=
  exists t, 0 <= t < PAGE_MAP_ENTRIES /\
    has_flag PG_PRESENT (read_entry m tbl t) = true /\
    entry_frame (read_entry m tbl t) = f.

(** Frame [f] is held through the private/user range of [map]: one of the
    Directory's 1024 entries is a present private/user-range entry, and [f]
    is its Table or a frame referenced from that Table. *)
Definition user_held (m : gmap Z (gmap Z Z)) (map f : Z) : Prop :=
  exists d, 0 <= d < PAGE_MAP_ENTRIES /\ owner d = Exclusive /\
    has_flag PG_PRESENT (read_entry m map d) = true /\
    (entry_frame (read_entry m map d) = f \/
     leaf_of m (entry_frame (read_entry m map d)) f).

(** The frames referenced from the shared/kernel range of [map], one list
    element per reference. *)
Definition shared_refs (m : gmap Z (gmap Z Z)) (map : Z) : list Z :=
  concat (List.map (kept_refs m map)
            (List.filter (held_by Shared) page_map_indices)).

(** The data-model invariants the directory slots in [slots] rely on: a
    present slot references a second-level Table in a frame of its own
    (not the Directory's, not another slot's, not a free frame), and the
    Frame Allocator hands out page-aligned 32-bit frames, each once, none
    of them the Directory's. *)
Record well_formed (slots : Z -> Prop) (s : state) : Prop := {
  wf_table_apart : forall d, slots d ->
    has_flag PG_PRESENT (read_entry (phys s) (root s) d) = true ->
    entry_frame (read_entry (phys s) (root s) d) <> root s /\
    (entry_frame (read_entry (phys s) (root s) d) ∉ free_frames s);
  wf_table_own : forall d d', slots d -> slots d' ->
    has_flag PG_PRESENT (read_entry (phys s) (root s) d) = true ->
    has_flag PG_PRESENT (read_entry (phys s) (root s) d') = true ->
    entry_frame (read_entry (phys s) (root s) d) =
    entry_frame (read_entry (phys s) (root s) d') -> d = d';
  wf_free_nodup : NoDup (free_frames s);
  wf_free_frames : forall f, f ∈ free_frames s -> 0 <= f < 2^32 /\ page_aligned f;
  wf_root_held : root s ∉ free_frames s
}.

End Model.

(** The directory slots the pages of a range fall into. *)
Definition touched (viraddr pages : Z) (d : Z) : Prop :=
  exists i, 0 <= i < pages /\ pgd_index (u32 (viraddr + i * PAGE_SIZE)) = d.

(** The directory slot of the Self-Map Window, the recursive slot: the
    window is the last 4 MiB of the address space, from [PAGE_MAP_PGT] on. *)
Definition recursive_slot : Z := pgd_index PAGE_MAP_PGD.

(** An address space of the data model: the invariants hold on every
    directory slot but the recursive one, whose entry references the
    Directory itself and no Table of its own. *)
Definition address_space (s : state) : Prop :=
  well_formed (fun d => d <> recursive_slot) s.

(** *** The concrete scenarios of the specification (its section 8)

    The kernel range is the first GiB, directory slots 0 to 255, and the
    recursive slot 1023 is shared as well. The Directory is in frame
    0x1000; slot 0 holds a kernel Table in frame 0x2000 that maps the page
    at 0x00100000 onto frame 0x00300000, and slot 1023 points back at the
    Directory. Two frames are free. *)
Definition scenario_owner (d : Z) : ownership :=
  if (d <? 256) || (d =? 1023) then Shared else Exclusive.

Definition scenario_phys : gmap Z (gmap Z Z) :=
  write_entry
    (write_entry
       (write_entry ∅ 0x1000 0 (Z.lor 0x2000 (Z.lor PG_PRESENT PG_RW)))
       0x1000 1023 (Z.lor 0x1000 (Z.lor PG_PRESENT PG_RW)))
    0x2000 256 (Z.lor 0x00300000 (Z.lor PG_PRESENT PG_RW)).

Definition scenario_start : state :=
  {| phys := scenario_phys; root := 0x1000; free_frames := [0x200000; 0x201000] |}.

(** Scenario A: map 3 pages, virtual base 0x40000000, physical base
    0x00100000, flags present, writable and user. *)
Definition scenario_A : state :=
  snd (page_map scenario_owner 0x40000000 0x00100000 3
         (Z.lor (Z.lor PG_PRESENT PG_RW) PG_USER) scenario_start).

(** Scenario B: unmap the same 3 pages. *)
Definition scenario_B : state := snd (page_unmap 0x40000000 3 scenario_A).

(** The address space of scenario A with a fourth user page, at
    0x40003000, mapped onto the frame of the first, 0x00100000. *)
Definition scenario_aliased : state :=
  snd (page_map scenario_owner 0x40003000 0x00100000 1
         (Z.lor (Z.lor PG_PRESENT PG_RW) PG_USER) scenario_A).

(** The address space of scenario A with a fourth user page, at
    0x40003000, mapped onto frame 0x00300000, which the kernel range maps
    as well. *)
Definition scenario_kernel_frame : state :=
  snd (page_map scenario_owner 0x40003000 0x00300000 1
         (Z.lor (Z.lor PG_PRESENT PG_RW) PG_USER) scenario_A).

End Paging.

(** ** arch/x86/include/asm/processor.h: the functions around inline assembly

    [msb] and [lsb], [rdmsr] and [wrmsr], and [flush_tlb]. The bit scans
    and the load of CR3 are the instructions the [asm] statements name; the
    two instructions on model-specific registers, whose effect depends on
    the register and on the processor model, are parameters. *)
Module Cpu.
Import CInt Page Processor.

(** [sizeof(size_t)] on the i386 target. *)
Definition sizeof_size_t : Z := 4.

(** Conversion to a 64-bit unsigned type ([uint64_t]). *)
Definition u64 (x : Z) : Z := x mod 2^64.

(** [bsr %1, %0]: the index of the most significant set bit of a 32-bit
    source, found by looking at bit 31, then bit 30, and so on. The
    architecture leaves the destination undefined for a zero source; the
    scan then ends with 0. *)
Fixpoint scan_down (n : nat) (src : Z) : Z :=
  match n with
  | O => 0
  | S k => if Z.testbit src (Z.of_nat k) then Z.of_nat k else scan_down k src
  end.

Definition insn_bsr (src : Z) : Z := scan_down 32 src.

(** [bsf %1, %0]: the index of the least significant set bit of a 32-bit
    source, found by looking at bit 0, then bit 1, and so on (0 for a zero
    source, where the architecture defines nothing). *)
Fixpoint scan_up (n : nat) (pos : Z) (src : Z) : Z :=
  match n with
  | O => 0
  | S k => if Z.testbit src pos then pos else scan_up k (pos + 1) src
  end.

Definition insn_bsf (src : Z) : Z := scan_up 32 0 src.

(** search the first most significant bit *)
Definition msb (i : Z) : Z :=
  if i =? 0 then sizeof_size_t * 8 else insn_bsr i.

(** search the least significant bit *)
Definition lsb (i : Z) : Z :=
  if i =? 0 then sizeof_size_t * 8 else insn_bsf i.

(** The processor beyond its control registers: the model-specific
    registers, 64 bits each, by index; and the translation lookaside
    buffer, the cached translations by 4 KiB page number, each with the
    frame it maps to and whether it was cached as a global entry. *)
Record cpu : Type := {
  core : machine;
  msrs : Z -> Z;
  tlb : gmap Z (Z * bool)
}.

(** A C function over the processor: its result and the processor it
    leaves. *)
Definition C (A : Type) : Type := cpu -> A * cpu.

(** A function of the control registers and [cpu_info] alone, run on the
    processor. *)
Definition lift {A} (f : M A) : C A := fun c =>
  let (a, m) := f (core c) in
  (a, {| core := m; msrs := msrs c; tlb := tlb c |}).

(** [rdmsr] and [wrmsr] reach a model-specific register through the
    instruction of the same name. What the instruction does depends on the
    register and on the processor model: a register that does not exist, or
    a value it rejects, raises a general-protection fault, and a write may
    change more of the processor than the register. The two instructions
    are therefore parameters of the C functions, over any processor state
    [hw]; [None] is the fault, which the C functions do not handle. *)
Section Msr.

Variable hw : Type.

(** [rdmsr]: ECX names the register, the result is the pair (EAX, EDX). *)
Variable insn_rdmsr : Z -> hw -> option ((Z * Z) * hw).

(** [wrmsr]: EAX, ECX (the register) and EDX. *)
Variable insn_wrmsr : Z -> Z -> Z -> hw -> option hw.

(** Read MSR: [msr] is a [uint32_t]; [low] and [high] are the [uint32_t]
    variables that receive EAX and EDX;
    [return ((uint64_t)high << 32) | low]. *)
Definition rdmsr (msr : Z) (c : hw) : option (Z * hw) :=
  match insn_rdmsr (u32 msr) c with
  | Some ((eax, edx), c1) =>
      let low := u32 eax in
      let high := u32 edx in
      Some (Z.lor (u64 (Z.shiftl (u64 high) 32)) (u64 low), c1)
  | None => None
  end.

(** Write a value to a MSR: [msr] is a [uint32_t] and [value] a
    [uint64_t]; [low = value & 0xFFFFFFFF] and [high = value >> 32], both
    of type [uint32_t], go to EAX and EDX. *)
Definition wrmsr (msr value : Z) (c : hw) : option hw :=
  let low := u32 (Z.land (u64 value) (u64 0xFFFFFFFF)) in
  let high := u32 (Z.shiftr (u64 value) 32) in
  insn_wrmsr low (u32 msr) high c.

End Msr.

Arguments rdmsr {hw} insn_rdmsr msr c.
Arguments wrmsr {hw} insn_wrmsr msr value c.

(** A register file that only stores, the simplest processor the two
    functions can run on: every index names a 64-bit register of [msrs],
    [wrmsr] puts EDX:EAX into it and [rdmsr] hands its two halves back. *)
Definition stored_rdmsr (ecx : Z) (c : cpu) : option ((Z * Z) * cpu) :=
  Some ((u32 (msrs c ecx), u32 (Z.shiftr (msrs c ecx) 32)), c).

Definition stored_wrmsr (eax ecx edx : Z) (c : cpu) : option cpu :=
  Some {| core := core c;
          msrs := fun k => if k =? ecx then Z.lor (Z.shiftl edx 32) eax else msrs c k;
          tlb := tlb c |}.

(** [mov %0, %%cr3] on the processor: CR3 is loaded, and the load
    invalidates every cached translation that is not global. *)
Definition write_cr3 (val : Z) : C unit := fun c =>
  let (_, c1) := lift (Processor.write_cr3 val) c in
  (tt, {| core := core c1; msrs := msrs c1;
          tlb := filter (fun kv => snd (snd kv) = true) (tlb c1) |}).

(** Flush Translation Lookaside Buffer: read cr3 and, if it is not zero,
    write the same value back into it. *)
Definition flush_tlb : C unit := fun c =>
  let (val, c1) := lift Processor.read_cr3 c in
  if val =? 0 then (tt, c1) else write_cr3 val c1.

(** The value an accessor hands back for bit [k] of the word [w]: the mask
    itself when the bit is set. *)
Definition masked_bit (w k : Z) : Z := if Z.testbit w k then 2^k else 0.

End Cpu.

(** * Proofs *)

Import CInt Page.

Ltac zdiv := Z.to_euclidean_division_equations; lia.

(** ** Bits of 32-bit integers *)

Lemma u32_small (x : Z) : 0 <= x < 2^32 -> u32 x = x.
Proof. intros H. unfold u32. apply Z.mod_small, H. Qed.

Lemma u32_range (x : Z) : 0 <= u32 x < 2^32.
Proof. unfold u32. apply Z.mod_pos_bound. lia. Qed.

Lemma testbit_above (x k n : Z) : 0 <= x < 2^k -> k <= n -> Z.testbit x n = false.
Proof.
  intros Hx Hn.
  destruct (Z_lt_le_dec k 0) as [Hk|Hk].
  - rewrite Z.pow_neg_r in Hx by exact Hk. lia.
  - rewrite <- (Z.mod_small x (2^k)) by exact Hx.
    apply Z.mod_pow2_bits_high. lia.
Qed.

Lemma testbit_below (x k n : Z) : x mod 2^k = 0 -> 0 <= n < k -> Z.testbit x n = false.
Proof.
  intros Hx Hn.
  rewrite <- (Z.mod_pow2_bits_low x k n) by lia.
  rewrite Hx. apply Z.bits_0.
Qed.

Lemma testbit_u32 (x n : Z) : Z.testbit (u32 x) n = Z.testbit x n && (n <? 32).
Proof.
  unfold u32. destruct (Z.ltb_spec n 32) as [H|H].
  - rewrite andb_true_r.
    destruct (Z_lt_le_dec n 0) as [Hn|Hn].
    + now rewrite !Z.testbit_neg_r.
    + apply Z.mod_pow2_bits_low. lia.
  - rewrite andb_false_r. apply Z.mod_pow2_bits_high. lia.
Qed.

Lemma testbit_PAGE_MASK (n : Z) : Z.testbit PAGE_MASK n = (12 <=? n) && (n <? 32).
Proof.
  change PAGE_MASK with (Z.ldiff (Z.ones 32) (Z.ones 12)).
  destruct (Z_lt_le_dec n 0) as [Hn|Hn].
  - rewrite Z.testbit_neg_r by exact Hn.
    destruct (Z.leb_spec 12 n); [lia | reflexivity].
  - rewrite Z.ldiff_spec, !Z.testbit_ones_nonneg by lia.
    destruct (Z.leb_spec 12 n), (Z.ltb_spec n 32), (Z.ltb_spec n 12); simpl; lia || reflexivity.
Qed.

Lemma testbit_bit_field (lo w a m : Z) :
  0 <= lo -> 0 <= w ->
  Z.testbit (bit_field lo w a) m = (0 <=? m) && (m <? w) && Z.testbit a (m + lo).
Proof.
  intros Hlo Hw. unfold bit_field.
  destruct (Z.leb_spec 0 m) as [Hm|Hm]; simpl.
  - rewrite Z.land_spec, Z.shiftr_spec, Z.testbit_ones_nonneg by lia.
    apply andb_comm.
  - apply Z.testbit_neg_r, Hm.
Qed.

Lemma bit_field_div_mod (lo w a : Z) :
  0 <= lo -> 0 <= w -> bit_field lo w a = (a / 2^lo) mod 2^w.
Proof.
  intros Hlo Hw. unfold bit_field.
  rewrite Z.land_ones, Z.shiftr_div_pow2 by lia. reflexivity.
Qed.

Lemma pgd_index_div (a : Z) : pgd_index a = (a / 4194304) mod 1024.
Proof. unfold pgd_index. rewrite bit_field_div_mod by (vm_compute; discriminate). reflexivity. Qed.

Lemma pgt_index_div (a : Z) : pgt_index a = (a / 4096) mod 1024.
Proof. unfold pgt_index. rewrite bit_field_div_mod by (vm_compute; discriminate). reflexivity. Qed.

Lemma page_offset_mod (a : Z) : page_offset a = a mod 4096.
Proof.
  unfold page_offset. rewrite bit_field_div_mod by (vm_compute; discriminate).
  change (2^0) with 1. rewrite Z.div_1_r. reflexivity.
Qed.

(** Or-ing a value below [2^k] into a multiple of [2^k] adds it. *)
Lemma lor_low_bits (a b k : Z) :
  0 <= k -> a mod 2^k = 0 -> 0 <= b < 2^k -> Z.lor a b = a + b.
Proof.
  intros Hk Ha Hb.
  assert (Hdisj : Z.land a b = 0).
  { apply Z.bits_inj'. intros n Hn. rewrite Z.land_spec, Z.bits_0.
    destruct (Z_lt_le_dec n k) as [H|H].
    - rewrite (testbit_below a k n) by (assumption || lia). reflexivity.
    - rewrite (testbit_above b k n) by (assumption || lia). apply andb_false_r. }
  rewrite <- Z.lxor_lor, Z.add_nocarry_lxor by exact Hdisj. reflexivity.
Qed.

Lemma join_address_sum (d t o : Z) :
  0 <= d < 1024 -> 0 <= t < 1024 -> 0 <= o < 4096 ->
  join_address d t o = d * 4194304 + t * 4096 + o.
Proof.
  intros Hd Ht Ho. unfold join_address.
  change (PAGE_BITS + PAGE_MAP_BITS) with 22. change PAGE_BITS with 12.
  rewrite !Z.shiftl_mul_pow2 by lia.
  change (2^22) with 4194304. change (2^12) with 4096.
  rewrite (lor_low_bits (d * 4194304) (t * 4096) 22); try lia.
  - apply (lor_low_bits _ o 12); try lia.
    change (2^12) with 4096. zdiv.
  - change (2^22) with 4194304. zdiv.
Qed.

(** A page-aligned 32-bit address is determined by its two indices. *)
Lemma aligned_address_by_indices (a b : Z) :
  0 <= a < 2^32 -> 0 <= b < 2^32 -> page_aligned a -> page_aligned b ->
  pgd_index a = pgd_index b -> pgt_index a = pgt_index b -> a = b.
Proof.
  unfold page_aligned. change PAGE_SIZE with 4096. change (2^32) with 4294967296.
  rewrite !pgd_index_div, !pgt_index_div. intros. zdiv.
Qed.

(** For a single-bit mask, [has_flag] reads that bit of the Entry. *)
Lemma has_flag_pow2 (k : Z) (e : page_entry_t) :
  0 <= k < 32 -> has_flag (2^k) e = Z.testbit e k.
Proof.
  intros Hk. unfold has_flag, and_u32.
  rewrite (u32_small (2^k)) by (split; [lia | apply Z.pow_lt_mono_r; lia]).
  destruct (Z.testbit e k) eqn:Hb.
  - apply negb_true_iff, Z.eqb_neq. intros H0.
    assert (Hx : Z.testbit (Z.land (u32 e) (2^k)) k = true).
    { rewrite Z.land_spec, testbit_u32, Hb, Z.pow2_bits_true by lia.
      destruct (Z.ltb_spec k 32); [reflexivity | lia]. }
    rewrite H0, Z.bits_0 in Hx. discriminate.
  - apply negb_false_iff, Z.eqb_eq. apply Z.bits_inj'. intros n Hn.
    rewrite Z.land_spec, Z.bits_0, testbit_u32, Z.pow2_bits_eqb by lia.
    destruct (Z.eqb_spec k n) as [<-|Hne].
    + rewrite Hb. reflexivity.
    + apply andb_false_r.
Qed.

Lemma has_flag_present (e : page_entry_t) : has_flag PG_PRESENT e = Z.testbit e 0.
Proof. apply (has_flag_pow2 0). lia. Qed.

(** ** The header's constants *)

(** C4. The ten Entry flag masks sit at bits 0 to 9 in the order present,
    writable, user-accessible, write-through, cache-disabled, accessed,
    dirty, large-page, global, boot-marker; they are pairwise distinct and
    below 2^12, and [PAGE_MASK] is 0xFFFFF000, whose set bits are exactly
    bits 12 to 31, the remaining high-order 20 bits. *)
Theorem entry_flag_layout :
  PG_PRESENT = 2^0 /\ PG_RW = 2^1 /\ PG_USER = 2^2 /\ PG_PWT = 2^3 /\
  PG_PCD = 2^4 /\ PG_ACCESSED = 2^5 /\ PG_DIRTY = 2^6 /\ PG_PSE = 2^7 /\
  PG_GLOBAL = 2^8 /\ PG_BOOT = 2^9 /\
  NoDup entry_flag_masks /\
  Forall (fun m => 0 < m < 2^12 /\ Z.land m PAGE_MASK = 0) entry_flag_masks /\
  PAGE_MASK = 0xFFFFF000 /\
  PAGE_MASK = 2^32 - 2^12 /\
  (forall i, Z.testbit PAGE_MASK i = (12 <=? i) && (i <? 12 + 20)).
Proof.
  split_and!; try reflexivity.
  - apply (bool_decide_unpack _). vm_compute. reflexivity.
  - unfold entry_flag_masks. repeat constructor; vm_compute; congruence.
  - exact testbit_PAGE_MASK.
Qed.

(** C10. [PG_PAT] is the very mask [PG_PSE], 2^7, so an Entry carries the
    page-attribute-table flag exactly when it carries the large-page
    marker: the two predicates are the same function of the Entry. *)
Theorem pat_is_pse :
  PG_PAT = PG_PSE /\ PG_PAT = 2^7 /\ PG_PSE = 2^7 /\
  has_flag PG_PAT = has_flag PG_PSE /\
  (forall e : page_entry_t, has_flag PG_PAT e = has_flag PG_PSE e) /\
  (forall e : page_entry_t, has_flag PG_PAT e = Z.testbit e 7).
Proof.
  split_and!; try reflexivity.
  intros e. apply (has_flag_pow2 7). lia.
Qed.

(** C5. The directory index (bits 22 to 31), the table index (bits 12 to
    21) and the in-page offset (bits 0 to 11) decompose every 32-bit
    virtual address one-to-one: joining the three parts of an address gives
    the address back, and every triple in range is the split of the address
    it joins to. A page map has 2^PAGE_MAP_BITS = 1024 entries, and
    PAGE_MAP_LEVELS * PAGE_MAP_BITS + PAGE_BITS = 32 = VIRT_BITS. *)
Theorem address_decomposition :
  PAGE_MAP_ENTRIES = 2^PAGE_MAP_BITS /\ PAGE_MAP_ENTRIES = 1024 /\
  PAGE_MAP_LEVELS * PAGE_MAP_BITS + PAGE_BITS = 32 /\ VIRT_BITS = 32 /\
  (forall a, 0 <= a < 2^VIRT_BITS ->
     0 <= pgd_index a < PAGE_MAP_ENTRIES /\
     0 <= pgt_index a < PAGE_MAP_ENTRIES /\
     0 <= page_offset a < PAGE_SIZE /\
     (forall i, 0 <= i < 10 -> Z.testbit (pgd_index a) i = Z.testbit a (22 + i)) /\
     (forall i, 0 <= i < 10 -> Z.testbit (pgt_index a) i = Z.testbit a (12 + i)) /\
     (forall i, 0 <= i < 12 -> Z.testbit (page_offset a) i = Z.testbit a i) /\
     join_address (pgd_index a) (pgt_index a) (page_offset a) = a) /\
  (forall d t o,
     0 <= d < PAGE_MAP_ENTRIES -> 0 <= t < PAGE_MAP_ENTRIES -> 0 <= o < PAGE_SIZE ->
     0 <= join_address d t o < 2^VIRT_BITS /\
     pgd_index (join_address d t o) = d /\
     pgt_index (join_address d t o) = t /\
     page_offset (join_address d t o) = o).
Proof.
  change PAGE_MAP_ENTRIES with 1024. change PAGE_SIZE with 4096.
  change (2^VIRT_BITS) with 4294967296.
  split_and!; try reflexivity.
  - intros a Ha.
    assert (Hd : 0 <= pgd_index a < 1024) by (rewrite pgd_index_div; zdiv).
    assert (Ht : 0 <= pgt_index a < 1024) by (rewrite pgt_index_div; zdiv).
    assert (Ho : 0 <= page_offset a < 4096) by (rewrite page_offset_mod; zdiv).
    split_and!; try lia.
    + intros i Hi. unfold pgd_index.
      rewrite testbit_bit_field by (vm_compute; discriminate).
      change (PAGE_BITS + PAGE_MAP_BITS) with 22. change PAGE_MAP_BITS with 10.
      rewrite (Z.add_comm i 22).
      destruct (Z.leb_spec 0 i), (Z.ltb_spec i 10); try lia. reflexivity.
    + intros i Hi. unfold pgt_index.
      rewrite testbit_bit_field by (vm_compute; discriminate).
      change PAGE_BITS with 12. change PAGE_MAP_BITS with 10.
      rewrite (Z.add_comm i 12).
      destruct (Z.leb_spec 0 i), (Z.ltb_spec i 10); try lia. reflexivity.
    + intros i Hi. unfold page_offset.
      rewrite testbit_bit_field by (vm_compute; discriminate).
      change PAGE_BITS with 12. rewrite Z.add_0_r.
      destruct (Z.leb_spec 0 i), (Z.ltb_spec i 12); try lia. reflexivity.
    + rewrite join_address_sum by assumption.
      rewrite pgd_index_div, pgt_index_div, page_offset_mod. zdiv.
  - intros d t o Hd Ht Ho.
    rewrite pgd_index_div, pgt_index_div, page_offset_mod.
    rewrite join_address_sum by assumption.
    split_and!; zdiv.
Qed.

Lemma address_decomposition_example :
  0 <= 0x40001234 < 2^VIRT_BITS /\
  pgd_index 0x40001234 = 256 /\ pgt_index 0x40001234 = 1 /\
  page_offset 0x40001234 = 0x234 /\
  join_address (pgd_index 0x40001234) (pgt_index 0x40001234)
    (page_offset 0x40001234) = 0x40001234 /\
  pgd_index (join_address 1023 1022 4095) = 1023.
Proof.
  assert (Ha : 0 <= 0x40001234 < 2^VIRT_BITS) by (vm_compute; split; congruence).
  pose proof (proj1 (proj2 (proj2 (proj2 (proj2 address_decomposition)))) _ Ha) as Hsplit.
  pose proof (proj2 (proj2 (proj2 (proj2 (proj2 address_decomposition)))) 1023 1022 4095) as Hjoin.
  split; [exact Ha |].
  split; [reflexivity |]. split; [reflexivity |]. split; [reflexivity |].
  split.
  - exact (proj2 (proj2 (proj2 (proj2 (proj2 (proj2 Hsplit)))))).
  - apply Hjoin; vm_compute; split; congruence.
Defined.

(** C6. Both self-map window constants are page-aligned, and
    PAGE_MAP_PGD = PAGE_MAP_PGT + 1023 * PAGE_SIZE: the Directory shows at
    the table-window slot of directory index 1023, the recursive slot. The
    window address of the Table of any directory index [d],
    PAGE_MAP_PGT + d * PAGE_SIZE, is page-aligned, lies in the window, and
    decomposes into directory index 1023 and table index [d]. *)
Theorem self_map_window :
  page_aligned PAGE_MAP_PGD /\ page_aligned PAGE_MAP_PGT /\
  PAGE_MAP_PGD mod 4096 = 0 /\ PAGE_MAP_PGT mod 4096 = 0 /\
  PAGE_MAP_PGD = PAGE_MAP_PGT + 1023 * PAGE_SIZE /\
  PAGE_MAP_ENTRIES - 1 = 1023 /\
  pgt_window 1023 = PAGE_MAP_PGD /\
  pgd_index PAGE_MAP_PGD = 1023 /\ pgt_index PAGE_MAP_PGD = 1023 /\
  (forall d, 0 <= d < PAGE_MAP_ENTRIES ->
     page_aligned (pgt_window d) /\
     PAGE_MAP_PGT <= pgt_window d <= PAGE_MAP_PGD /\
     pgd_index (pgt_window d) = 1023 /\
     pgt_index (pgt_window d) = d /\
     (pgt_window d = PAGE_MAP_PGD <-> d = 1023)).
Proof.
  split_and!; try reflexivity.
  intros d. unfold page_aligned, pgt_window.
  rewrite pgd_index_div, pgt_index_div.
  change PAGE_MAP_ENTRIES with 1024. change PAGE_SIZE with 4096.
  change PAGE_MAP_PGT with 4290772992. change PAGE_MAP_PGD with 4294963200.
  intros Hd. split_and!; zdiv.
Qed.

Lemma self_map_window_example :
  0 <= 256 < PAGE_MAP_ENTRIES /\
  pgt_window 256 = 0xFFD00000 /\ pgd_index (pgt_window 256) = 1023 /\
  pgt_index (pgt_window 256) = 256.
Proof.
  assert (Hd : 0 <= 256 < PAGE_MAP_ENTRIES) by (vm_compute; split; congruence).
  pose proof (proj2 (proj2 (proj2 (proj2 (proj2 (proj2 (proj2 (proj2 (proj2
    self_map_window)))))))) 256 Hd) as H.
  split; [exact Hd |]. split; [reflexivity |].
  split; [exact (proj1 (proj2 (proj2 H))) | exact (proj1 (proj2 (proj2 (proj2 H))))].
Defined.

(** The macros on a 32-bit address, in closed form. *)
Lemma land_PAGE_MASK (x : Z) : 0 <= x < 2^32 -> Z.land x PAGE_MASK = 4096 * (x / 4096).
Proof.
  intros Hx.
  replace (4096 * (x / 4096)) with (Z.shiftl (Z.shiftr x 12) 12).
  - apply Z.bits_inj'. intros n Hn.
    rewrite Z.land_spec, testbit_PAGE_MASK, Z.shiftl_spec by exact Hn.
    destruct (Z.leb_spec 12 n) as [H12|H12]; simpl.
    + rewrite Z.shiftr_spec by lia. replace (n - 12 + 12) with n by lia.
      destruct (Z.ltb_spec n 32) as [H32|H32].
      * apply andb_true_r.
      * rewrite (testbit_above x 32 n) by (assumption || lia). reflexivity.
    + rewrite andb_false_r. symmetry. apply Z.testbit_neg_r. lia.
  - rewrite Z.shiftl_mul_pow2, Z.shiftr_div_pow2 by lia.
    change (2^12) with 4096. lia.
Qed.

Lemma PAGE_CEIL_div (addr : Z) :
  0 <= addr < 2^32 -> PAGE_CEIL addr = 4096 * (addr / 4096).
Proof.
  intros Ha. unfold PAGE_CEIL, and_u32.
  rewrite (u32_small addr) by exact Ha.
  change (u32 PAGE_MASK) with PAGE_MASK. apply land_PAGE_MASK, Ha.
Qed.

Lemma PAGE_FLOOR_div (addr : Z) :
  0 <= addr < 2^32 ->
  PAGE_FLOOR addr = 4096 * (((addr + 4095) mod 2^32) / 4096).
Proof.
  intros Ha. unfold PAGE_FLOOR, and_u32.
  change (u32 PAGE_MASK) with PAGE_MASK.
  assert (Hsum : u32 (sub_u32 (add_u32 addr PAGE_SIZE) 1) = (addr + 4095) mod 2^32).
  { unfold sub_u32, add_u32, u32. change PAGE_SIZE with 4096.
    change (2^32) with 4294967296 in *. zdiv. }
  rewrite Hsum. apply land_PAGE_MASK. apply Z.mod_pos_bound. lia.
Qed.

(** C9. On a 32-bit address, [PAGE_CEIL] is [addr & 0xFFFFF000], the
    greatest multiple of 4096 that is at most [addr] (it rounds down), and
    [PAGE_FLOOR] is [(addr + 4095) & 0xFFFFF000] computed modulo 2^32: the
    least multiple of 4096 that is at least [addr] when
    [addr <= 0xFFFFF000] (it rounds up), and 0 for every larger [addr],
    where the addition wraps around. *)
Theorem page_rounding_macros (addr : Z) :
  0 <= addr < 2^32 ->
  PAGE_CEIL addr = Z.land addr 0xFFFFF000 /\
  PAGE_FLOOR addr = Z.land ((addr + 4095) mod 2^32) 0xFFFFF000 /\
  (PAGE_CEIL addr mod 4096 = 0 /\ PAGE_CEIL addr <= addr /\
   forall m, m mod 4096 = 0 -> m <= addr -> m <= PAGE_CEIL addr) /\
  (addr <= 0xFFFFF000 ->
   PAGE_FLOOR addr mod 4096 = 0 /\ addr <= PAGE_FLOOR addr /\
   forall m, m mod 4096 = 0 -> addr <= m -> PAGE_FLOOR addr <= m) /\
  (0xFFFFF000 < addr -> PAGE_FLOOR addr = 0).
Proof.
  intros Ha.
  pose proof (PAGE_CEIL_div addr Ha) as Hc.
  pose proof (PAGE_FLOOR_div addr Ha) as Hf.
  change (2^32) with 4294967296 in *.
  split_and!.
  - rewrite Hc. symmetry. apply land_PAGE_MASK, Ha.
  - rewrite Hf. symmetry. apply land_PAGE_MASK.
    apply Z.mod_pos_bound. lia.
  - rewrite Hc. zdiv.
  - rewrite Hc. zdiv.
  - intros m Hm Hle. rewrite Hc. zdiv.
  - intros Hle. rewrite Hf. split_and!; [zdiv | zdiv |].
    intros m Hm Hge. zdiv.
  - intros Hgt. rewrite Hf. zdiv.
Qed.

Lemma page_rounding_macros_example :
  (0 <= 0xFFFFF001 < 2^32 /\ 0xFFFFF000 < 0xFFFFF001 /\
   PAGE_CEIL 0xFFFFF001 <= 0xFFFFF001 /\ PAGE_FLOOR 0xFFFFF001 = 0) /\
  (0 <= 0x1234 < 2^32 /\ 0x1234 <= 0xFFFFF000 /\
   0x1000 <= PAGE_CEIL 0x1234 <= 0x1234 /\ 0x1234 <= PAGE_FLOOR 0x1234 <= 0x2000).
Proof.
  assert (Ha : 0 <= 0xFFFFF001 < 2^32) by (vm_compute; split; congruence).
  assert (Hgt : 0xFFFFF000 < 0xFFFFF001) by reflexivity.
  assert (Hb : 0 <= 0x1234 < 2^32) by (vm_compute; split; congruence).
  assert (Hle : 0x1234 <= 0xFFFFF000) by (vm_compute; congruence).
  destruct (page_rounding_macros 0xFFFFF001 Ha) as (_ & _ & (_ & Hdown & _) & _ & Hwrap).
  destruct (page_rounding_macros 0x1234 Hb) as (_ & _ & (_ & Hdown' & Hmax) & Hup & _).
  destruct (Hup Hle) as (_ & Hup' & Hmin).
  split.
  - split; [exact Ha |]. split; [exact Hgt |].
    split; [exact Hdown | exact (Hwrap Hgt)].
  - split; [exact Hb |]. split; [exact Hle |].
    split; split.
    + apply Hmax; [reflexivity | vm_compute; congruence].
    + exact Hdown'.
    + exact Hup'.
    + apply Hmin; [reflexivity | vm_compute; congruence].
Defined.

(** ** include/eduos/syscall.h *)

Import Syscall.

(** C8. The system-call numbers [__NR_exit] to [__NR_dup2] are pairwise
    distinct, lie between 0 and 32, and are all of 0 to 32 but the single
    number 5, between [__NR_read] = 4 and [__NR_lseek] = 6. *)
Theorem syscall_number_table :
  NoDup syscall_numbers /\
  Forall (fun n => 0 <= n <= 32) syscall_numbers /\
  __NR_exit = 0 /\ __NR_read = 4 /\ __NR_lseek = 6 /\ __NR_dup2 = 32 /\
  length syscall_numbers = 32%nat /\
  (forall n, n ∈ syscall_numbers <-> (0 <= n <= 32 /\ n <> 5)).
Proof.
  split_and!; try reflexivity.
  - apply (bool_decide_unpack _). vm_compute. reflexivity.
  - apply (bool_decide_unpack _). vm_compute. reflexivity.
  - intros n. split.
    + revert n. apply Forall_forall.
      apply (bool_decide_unpack _). vm_compute. reflexivity.
    + intros [Hn H5].
      assert (Hall : Forall (fun k => k <> 5 -> k ∈ syscall_numbers) (seqZ 0 33)).
      { apply (bool_decide_unpack _). vm_compute. reflexivity. }
      rewrite Forall_forall in Hall. apply Hall; [| exact H5].
      apply elem_of_seqZ. lia.
Qed.

(** ** arch/x86/include/asm/processor.h *)

Import Processor.

(** Masking with a single-bit mask is nonzero exactly when the bit is set. *)
Lemma and_u32_single_bit (x mask k : Z) :
  0 <= k < 32 -> u32 mask = 2^k ->
  and_u32 x mask <> 0 <-> Z.testbit x k = true.
Proof.
  intros Hk Hmask.
  pose proof (has_flag_pow2 k x Hk) as Hflag.
  unfold has_flag, and_u32 in *.
  rewrite (u32_small (2^k)) in Hflag by (split; [lia | apply Z.pow_lt_mono_r; lia]).
  rewrite Hmask, <- Hflag, negb_true_iff, Z.eqb_neq. reflexivity.
Qed.

Lemma feature_accessor_reads_bit (field : cpu_info_t -> Z) (mask k : Z) :
  0 <= k < 32 -> u32 mask = 2^k ->
  reads_feature_bit
    (bind load_cpu_info (fun ci => ret (and_u32 (field ci) mask))) field k.
Proof.
  intros Hk Hmask m. split_and!.
  - reflexivity.
  - intros m' Heq. unfold bind, load_cpu_info, ret. simpl. rewrite Heq. reflexivity.
  - unfold bind, load_cpu_info, ret. simpl. apply and_u32_single_bit; assumption.
Qed.

(** C7. Each CPU feature accessor leaves the machine as it found it, gives
    equal results on machines with equal [cpu_info], and returns nonzero
    exactly when its bit of the record is set: [feature1] bit 0 for the
    FPU, 5 for MSR, 9 for APIC, 24 for FXSR, 25 for SSE, 26 for SSE2;
    [feature2] bit 21 for x2APIC, 28 for AVX, 31 for the hypervisor. *)
Theorem cpu_feature_accessors :
  reads_feature_bit has_fpu feature1 0 /\
  reads_feature_bit has_msr feature1 5 /\
  reads_feature_bit has_apic feature1 9 /\
  reads_feature_bit has_fxsr feature1 24 /\
  reads_feature_bit has_sse feature1 25 /\
  reads_feature_bit has_sse2 feature1 26 /\
  reads_feature_bit has_x2apic feature2 21 /\
  reads_feature_bit has_avx feature2 28 /\
  reads_feature_bit on_hypervisor feature2 31.
Proof.
  split_and!; apply feature_accessor_reads_bit; (lia || reflexivity).
Qed.

Lemma cpu_feature_accessors_example :
  let ci := {| feature1 := 0x0000021; feature2 := 0x80000000 |} in
  let m := {| cpu_info := ci; cr0 := 1; cr2 := 0; cr3 := 0x1000; cr4 := 0 |} in
  let m' := {| cpu_info := ci; cr0 := 0x80000001; cr2 := 7; cr3 := 0x2000; cr4 := 16 |} in
  cpu_info m' = cpu_info m /\
  snd (on_hypervisor m) = m /\
  fst (on_hypervisor m') = fst (on_hypervisor m) /\
  fst (on_hypervisor m) <> 0 /\
  fst (has_msr m') = fst (has_msr m).
Proof.
  intros ci m m'.
  pose proof (proj2 (proj2 (proj2 (proj2 (proj2 (proj2 (proj2 (proj2
    cpu_feature_accessors))))))) m) as Hhyp.
  pose proof (proj1 (proj2 cpu_feature_accessors) m) as Hmsr.
  assert (Heq : cpu_info m' = cpu_info m) by reflexivity.
  split; [exact Heq |].
  split; [exact (proj1 Hhyp) |].
  split; [exact (proj1 (proj2 Hhyp) m' Heq) |].
  split; [apply (proj2 (proj2 Hhyp)); reflexivity |].
  exact (proj1 (proj2 Hmsr) m' Heq).
Defined.

(** ** The Address Space Manager *)

Import Paging.

(** *** Physical memory *)

Lemma read_write_entry (m : gmap Z (gmap Z Z)) (f i e f' i' : Z) :
  read_entry (write_entry m f i e) f' i' =
  if decide (f = f' /\ i = i') then e else read_entry m f' i'.
Proof.
  unfold read_entry, write_entry.
  destruct (decide (f = f')) as [<-|Hf].
  - rewrite lookup_insert_eq. simpl.
    destruct (decide (i = i')) as [<-|Hi].
    + rewrite lookup_insert_eq, decide_True by done. reflexivity.
    + rewrite lookup_insert_ne, decide_False by first [done | intros [? ?]; done]. reflexivity.
  - rewrite lookup_insert_ne, decide_False by first [done | intros [? ?]; done]. reflexivity.
Qed.

Lemma read_write_entry_eq (m : gmap Z (gmap Z Z)) (f i e : Z) :
  read_entry (write_entry m f i e) f i = e.
Proof. rewrite read_write_entry, decide_True by done. reflexivity. Qed.

Lemma read_write_entry_frame_ne (m : gmap Z (gmap Z Z)) (f i e f' i' : Z) :
  f <> f' -> read_entry (write_entry m f i e) f' i' = read_entry m f' i'.
Proof. intros Hf. rewrite read_write_entry, decide_False by first [done | intros [? ?]; done]. reflexivity. Qed.

Lemma read_write_entry_index_ne (m : gmap Z (gmap Z Z)) (f i e f' i' : Z) :
  i <> i' -> read_entry (write_entry m f i e) f' i' = read_entry m f' i'.
Proof. intros Hi. rewrite read_write_entry, decide_False by first [done | intros [? ?]; done]. reflexivity. Qed.

Lemma read_zero_frame (m : gmap Z (gmap Z Z)) (f f' i : Z) :
  read_entry (zero_frame m f) f' i = if decide (f = f') then 0 else read_entry m f' i.
Proof.
  unfold read_entry, zero_frame.
  destruct (decide (f = f')) as [<-|Hf].
  - rewrite lookup_insert_eq. simpl. rewrite lookup_empty. reflexivity.
  - rewrite lookup_insert_ne by done. reflexivity.
Qed.

(** *** Entries *)

(** The low twelve bits do not reach the address an Entry encodes. *)
Lemma entry_frame_lor (base low : Z) :
  0 <= base < 2^32 -> page_aligned base ->
  (forall n, 12 <= n -> Z.testbit low n = false) ->
  entry_frame (Z.lor base low) = base.
Proof.
  intros Hb Ha Hlow. unfold entry_frame, and_u32.
  change (u32 PAGE_MASK) with PAGE_MASK.
  apply Z.bits_inj'. intros n Hn.
  rewrite Z.land_spec, testbit_PAGE_MASK, testbit_u32, Z.lor_spec.
  destruct (Z.leb_spec 12 n) as [H12|H12], (Z.ltb_spec n 32) as [H32|H32]; simpl;
    rewrite ?andb_false_r, ?andb_true_r.
  - rewrite Hlow by exact H12. apply orb_false_r.
  - symmetry. apply (testbit_above base 32); assumption.
  - symmetry. apply (testbit_below base 12); [exact Ha | lia].
  - lia.
Qed.

Lemma flag_set_low_bits (flags n : Z) :
  0 <= flags < PAGE_SIZE -> 12 <= n -> Z.testbit (Z.lor flags PG_PRESENT) n = false.
Proof.
  intros Hf Hn. rewrite Z.lor_spec.
  rewrite (testbit_above flags 12 n), (testbit_above PG_PRESENT 12 n);
    [reflexivity | vm_compute; split; congruence | exact Hn | exact Hf | exact Hn].
Qed.

Lemma leaf_entry_frame (phyaddr flags : Z) :
  0 <= phyaddr < 2^32 -> page_aligned phyaddr -> 0 <= flags < PAGE_SIZE ->
  entry_frame (Z.lor (Z.lor phyaddr flags) PG_PRESENT) = phyaddr.
Proof.
  intros Hp Ha Hf. rewrite <- Z.lor_assoc.
  apply entry_frame_lor; [exact Hp | exact Ha |].
  intros n Hn. apply flag_set_low_bits; assumption.
Qed.

Lemma leaf_entry_present (x : Z) : has_flag PG_PRESENT (Z.lor x PG_PRESENT) = true.
Proof. rewrite has_flag_present, Z.lor_spec. apply orb_true_r. Qed.

Lemma cleared_entry_absent (old : Z) :
  has_flag PG_PRESENT (Z.ldiff old (Z.lor PAGE_MASK PG_PRESENT)) = false.
Proof. rewrite has_flag_present, Z.ldiff_spec. apply andb_false_r. Qed.

(** *** Addresses of a range *)

Lemma u32_page_aligned (a : Z) : page_aligned a -> page_aligned (u32 a).
Proof.
  unfold page_aligned, u32. change PAGE_SIZE with 4096.
  change (2^32) with 4294967296. intros H. zdiv.
Qed.

Lemma range_page_aligned (v i : Z) : page_aligned v -> page_aligned (u32 (v + i * PAGE_SIZE)).
Proof.
  intros H. apply u32_page_aligned. revert H. unfold page_aligned.
  change PAGE_SIZE with 4096. intros H. zdiv.
Qed.

Lemma range_next (v i : Z) :
  add_u32 (u32 (v + i * PAGE_SIZE)) PAGE_SIZE = u32 (v + (i + 1) * PAGE_SIZE).
Proof.
  unfold add_u32, u32. change PAGE_SIZE with 4096.
  change (2^32) with 4294967296. zdiv.
Qed.

(** Two offsets that meet at one virtual page meet at one physical frame. *)
Lemma range_same_page (v p i j : Z) :
  u32 (v + i * PAGE_SIZE) = u32 (v + j * PAGE_SIZE) ->
  u32 (p + i * PAGE_SIZE) = u32 (p + j * PAGE_SIZE).
Proof.
  unfold u32. change PAGE_SIZE with 4096.
  change (2^32) with 4294967296. intros H. zdiv.
Qed.

Lemma aligned_true (a : Z) : 0 <= a < 2^32 -> page_aligned a -> aligned a = true.
Proof.
  intros Ha Hal. unfold aligned, and_u32.
  rewrite (u32_small a) by exact Ha.
  change (u32 (PAGE_SIZE - 1)) with (Z.ones 12).
  rewrite Z.land_ones by lia. apply Z.eqb_eq. exact Hal.
Qed.

Lemma aligned_page_aligned (a : Z) : 0 <= a < 2^32 -> aligned a = true -> page_aligned a.
Proof.
  intros Ha. unfold aligned, and_u32, page_aligned.
  rewrite (u32_small a) by exact Ha.
  change (u32 (PAGE_SIZE - 1)) with (Z.ones 12).
  rewrite Z.land_ones by lia. apply Z.eqb_eq.
Qed.

Lemma page_offset_aligned (a : Z) : page_aligned a -> page_offset a = 0.
Proof. intros H. rewrite page_offset_mod. exact H. Qed.

(** *** Translation and mapping *)

Section AddressSpace.

Variable owner : Z -> ownership.

Lemma table_flags_low_bits (d n : Z) :
  12 <= n -> Z.testbit (table_flags owner d) n = false.
Proof.
  intros Hn. unfold table_flags.
  destruct (owner d); apply (testbit_above _ 12);
    first [exact Hn | vm_compute; split; congruence].
Qed.

Lemma table_entry_present (f d : Z) :
  has_flag PG_PRESENT (Z.lor f (table_flags owner d)) = true.
Proof.
  rewrite has_flag_present, Z.lor_spec. unfold table_flags.
  destruct (owner d); apply orb_true_r.
Qed.

(** [virt_to_phys] reads one Directory entry and, if that is present, one
    Table entry. *)
Lemma virt_to_phys_reads (a : Z) (s s' : state) :
  root s' = root s ->
  read_entry (phys s') (root s) (pgd_index a) =
    read_entry (phys s) (root s) (pgd_index a) ->
  (has_flag PG_PRESENT (read_entry (phys s) (root s) (pgd_index a)) = true ->
   read_entry (phys s') (entry_frame (read_entry (phys s) (root s) (pgd_index a)))
     (pgt_index a) =
   read_entry (phys s) (entry_frame (read_entry (phys s) (root s) (pgd_index a)))
     (pgt_index a)) ->
  virt_to_phys a s' = virt_to_phys a s.
Proof.
  intros Hroot Hpde Hpte. unfold virt_to_phys. rewrite Hroot, Hpde.
  destruct (has_flag PG_PRESENT (read_entry (phys s) (root s) (pgd_index a))); [| reflexivity].
  rewrite Hpte by reflexivity. reflexivity.
Qed.

Section Slots.

Variable slots : Z -> Prop.

(** One page of [page_map]: the page is mapped, every other page of the
    slots in scope translates as before, and the invariants stay. *)
Lemma map_page_spec (a p fl : Z) (s s1 : state) :
  0 <= p < 2^32 -> page_aligned p -> 0 <= fl < PAGE_SIZE ->
  page_aligned a ->
  well_formed slots s -> slots (pgd_index a) ->
  map_page owner a p fl s = (Success, s1) ->
  well_formed slots s1 /\
  virt_to_phys a s1 = Translated p /\
  (forall b, slots (pgd_index b) ->
     pgd_index b <> pgd_index a \/ pgt_index b <> pgt_index a ->
     virt_to_phys b s1 = virt_to_phys b s).
Proof.
  intros Hp Hpa Hfl Ha Hwf Hslot. unfold map_page.
  destruct (has_flag PG_PRESENT (read_entry (phys s) (root s) (pgd_index a))) eqn:Hpde.
  - (* the Table exists *)
    intros [= <-].
    destruct (wf_table_apart _ _ Hwf _ Hslot Hpde) as [Hroot Hfree].
    assert (Hdir : forall d, read_entry
              (write_entry (phys s) (entry_frame (read_entry (phys s) (root s) (pgd_index a)))
                 (pgt_index a) (Z.lor (Z.lor p fl) PG_PRESENT)) (root s) d =
              read_entry (phys s) (root s) d).
    { intros d. apply read_write_entry_frame_ne. exact Hroot. }
    split_and!.
    + destruct Hwf as [Hap Hown Hnd Hfr Hrt].
      constructor; simpl; try assumption.
      * intros d Hd. rewrite Hdir. apply Hap, Hd.
      * intros d d' Hd Hd'. rewrite !Hdir. apply Hown; assumption.
    + unfold virt_to_phys. simpl. rewrite Hdir, Hpde, read_write_entry_eq.
      rewrite leaf_entry_present, leaf_entry_frame by assumption.
      rewrite page_offset_aligned by exact Ha. f_equal. lia.
    + intros b Hb Hne. apply virt_to_phys_reads; simpl.
      * reflexivity.
      * apply Hdir.
      * intros Hpb. rewrite read_write_entry. apply decide_False.
        intros [Hf Ht]. destruct Hne as [Hne|Hne]; [| congruence].
        apply Hne. symmetry.
        apply (wf_table_own _ _ Hwf); assumption.
  - (* a new Table is installed *)
    unfold get_page.
    destruct (free_frames s) as [|f rest] eqn:Hfree; [discriminate |].
    intros [= <-]. simpl.
    assert (Hfin : f ∈ free_frames s) by (rewrite Hfree; left).
    destruct (wf_free_frames _ _ Hwf f Hfin) as [Hfr Hfa].
    assert (Hfroot : f <> root s).
    { intros ->. exact (wf_root_held _ _ Hwf Hfin). }
    assert (Hnd : NoDup (f :: rest)) by (rewrite <- Hfree; exact (wf_free_nodup _ _ Hwf)).
    apply NoDup_cons in Hnd as [Hfrest Hndrest].
    rewrite read_write_entry_eq.
    rewrite (entry_frame_lor f (table_flags owner (pgd_index a)))
      by (assumption || apply table_flags_low_bits).
    set (m2 := write_entry (zero_frame (phys s) f) (root s) (pgd_index a)
                 (Z.lor f (table_flags owner (pgd_index a)))).
    set (m3 := write_entry m2 f (pgt_index a) (Z.lor (Z.lor p fl) PG_PRESENT)).
    assert (Hdir_a : read_entry m3 (root s) (pgd_index a) =
                     Z.lor f (table_flags owner (pgd_index a))).
    { unfold m3. rewrite read_write_entry_frame_ne by exact Hfroot.
      apply read_write_entry_eq. }
    assert (Hdir : forall d, d <> pgd_index a ->
              read_entry m3 (root s) d = read_entry (phys s) (root s) d).
    { intros d Hd. unfold m3, m2.
      rewrite read_write_entry_frame_ne by exact Hfroot.
      rewrite read_write_entry_index_ne by congruence.
      rewrite read_zero_frame. apply decide_False. exact Hfroot. }
    assert (Hold : forall F t, F <> f -> F <> root s ->
              read_entry m3 F t = read_entry (phys s) F t).
    { intros F t HF HFr. unfold m3, m2.
      rewrite !read_write_entry_frame_ne by congruence.
      rewrite read_zero_frame. apply decide_False. congruence. }
    assert (Hframe : entry_frame (Z.lor f (table_flags owner (pgd_index a))) = f).
    { apply entry_frame_lor; [assumption | assumption | apply table_flags_low_bits]. }
    split_and!.
    + constructor; simpl.
      * intros d Hd. destruct (decide (d = pgd_index a)) as [->|Hda].
        -- rewrite Hdir_a, Hframe. intros _. split; [exact Hfroot | exact Hfrest].
        -- rewrite Hdir by exact Hda. intros Hpd.
           destruct (wf_table_apart _ _ Hwf _ Hd Hpd) as [H1 H2].
           split; [exact H1 |]. intros Hin. apply H2. rewrite Hfree. right. exact Hin.
      * intros d d' Hd Hd'.
        destruct (decide (d = pgd_index a)) as [->|Hda],
                 (decide (d' = pgd_index a)) as [->|Hda']; try done.
        -- rewrite Hdir_a, Hframe, (Hdir d') by exact Hda'. intros _ Hpd' Heq.
           destruct (wf_table_apart _ _ Hwf _ Hd' Hpd') as [_ H2].
           exfalso. apply H2. rewrite <- Heq. exact Hfin.
        -- rewrite Hdir_a, Hframe, (Hdir d) by exact Hda. intros Hpd _ Heq.
           destruct (wf_table_apart _ _ Hwf _ Hd Hpd) as [_ H2].
           exfalso. apply H2. rewrite Heq. exact Hfin.
        -- rewrite (Hdir d), (Hdir d') by assumption. apply (wf_table_own _ _ Hwf); assumption.
      * exact Hndrest.
      * intros g Hg. apply (wf_free_frames _ _ Hwf). rewrite Hfree. right. exact Hg.
      * intros Hin. apply (wf_root_held _ _ Hwf). rewrite Hfree. right. exact Hin.
    + unfold virt_to_phys. simpl. rewrite Hdir_a, table_entry_present, Hframe.
      unfold m3 at 1 2. rewrite read_write_entry_eq.
      rewrite leaf_entry_present, leaf_entry_frame by assumption.
      rewrite page_offset_aligned by exact Ha. f_equal. lia.
    + intros b Hb Hne. unfold virt_to_phys. simpl.
      destruct (decide (pgd_index b = pgd_index a)) as [Heq|Hda].
      * destruct Hne as [Hne|Hne]; [done |].
        rewrite Heq, Hdir_a, table_entry_present, Hframe, Hpde.
        unfold m3, m2. rewrite read_write_entry_index_ne by congruence.
        rewrite read_write_entry_frame_ne by congruence.
        rewrite read_zero_frame, decide_True by reflexivity.
        reflexivity.
      * rewrite Hdir by exact Hda.
        destruct (has_flag PG_PRESENT (read_entry (phys s) (root s) (pgd_index b))) eqn:Hpb;
          [| reflexivity].
        destruct (wf_table_apart _ _ Hwf _ Hb Hpb) as [H1 H2].
        rewrite Hold; [reflexivity | | exact H1].
        intros Heq. apply H2. rewrite Heq. exact Hfin.
Qed.


(** The pages of a range, one after the other: when the walk succeeds,
    every page of the range translates to its frame. *)
Lemma map_pages_spec (v p fl n : Z) :
  page_aligned v -> page_aligned p -> 0 <= fl < PAGE_SIZE ->
  (forall j, 0 <= j < n -> slots (pgd_index (u32 (v + j * PAGE_SIZE)))) ->
  forall (k : nat) (m : Z) (s s' : state),
    0 <= m -> m + Z.of_nat k = n ->
    well_formed slots s ->
    (forall j, 0 <= j < m ->
       virt_to_phys (u32 (v + j * PAGE_SIZE)) s = Translated (u32 (p + j * PAGE_SIZE))) ->
    map_pages owner k (u32 (v + m * PAGE_SIZE)) (u32 (p + m * PAGE_SIZE)) fl s
      = (Success, s') ->
    well_formed slots s' /\
    forall j, 0 <= j < n ->
      virt_to_phys (u32 (v + j * PAGE_SIZE)) s' = Translated (u32 (p + j * PAGE_SIZE)).
Proof.
  intros Hv Hp Hfl Hslots k.
  induction k as [|k IH]; intros m s s' Hm Hn Hwf Hdone; simpl.
  - intros [= <-]. split; [exact Hwf |].
    intros j Hj. apply Hdone. lia.
  - destruct (map_page owner (u32 (v + m * PAGE_SIZE)) (u32 (p + m * PAGE_SIZE)) fl s)
      as [st s1] eqn:Hstep.
    destruct st; try discriminate.
    destruct (map_page_spec _ _ _ _ _ (u32_range _) (range_page_aligned p m Hp) Hfl
                (range_page_aligned v m Hv) Hwf (Hslots m ltac:(lia)) Hstep)
      as (Hwf1 & Hnew & Hothers).
    rewrite !range_next. apply IH; [lia | lia | exact Hwf1 |].
    intros j Hj.
    destruct (decide (j = m)) as [->|Hjm]; [exact Hnew |].
    destruct (decide (pgd_index (u32 (v + j * PAGE_SIZE)) = pgd_index (u32 (v + m * PAGE_SIZE))))
      as [Hd|Hd];
    [destruct (decide (pgt_index (u32 (v + j * PAGE_SIZE)) = pgt_index (u32 (v + m * PAGE_SIZE))))
      as [Ht|Ht] |].
    + assert (Hsame : u32 (v + j * PAGE_SIZE) = u32 (v + m * PAGE_SIZE)).
      { apply aligned_address_by_indices;
          auto using u32_range, range_page_aligned. }
      rewrite Hsame, (range_same_page v p j m Hsame). exact Hnew.
    + rewrite Hothers; [apply Hdone; lia | apply Hslots; lia | right; exact Ht].
    + rewrite Hothers; [apply Hdone; lia | apply Hslots; lia | left; exact Hd].
Qed.

(** [page_map] fails on a page only for want of a frame, and then leaves
    the state as it found it. *)
Lemma map_page_failure (a p fl : Z) (s s1 : state) (st : status) :
  map_page owner a p fl s = (st, s1) ->
  st = Success \/ (st = AllocationFailure /\ s1 = s).
Proof.
  unfold map_page.
  destruct (has_flag PG_PRESENT (read_entry (phys s) (root s) (pgd_index a))).
  - intros [= <- <-]. left. reflexivity.
  - destruct (get_page s) as [[f s0]|].
    + intros [= <- <-]. left. reflexivity.
    + intros [= <- <-]. right. split; reflexivity.
Qed.

(** The invariants are invariants: whatever [page_map] returns on a range
    inside the slots in scope, it keeps them. *)
Lemma map_pages_well_formed (v p fl n : Z) :
  page_aligned v -> page_aligned p -> 0 <= fl < PAGE_SIZE ->
  (forall j, 0 <= j < n -> slots (pgd_index (u32 (v + j * PAGE_SIZE)))) ->
  forall (k : nat) (m : Z) (s s' : state) (st : status),
    0 <= m -> m + Z.of_nat k = n ->
    well_formed slots s ->
    map_pages owner k (u32 (v + m * PAGE_SIZE)) (u32 (p + m * PAGE_SIZE)) fl s
      = (st, s') ->
    well_formed slots s'.
Proof.
  intros Hv Hp Hfl Hslots k.
  induction k as [|k IH]; intros m s s' st Hm Hn Hwf; simpl.
  - intros [= _ <-]. exact Hwf.
  - destruct (map_page owner (u32 (v + m * PAGE_SIZE)) (u32 (p + m * PAGE_SIZE)) fl s)
      as [st1 s1] eqn:Hstep.
    destruct (map_page_failure _ _ _ _ _ _ Hstep) as [-> | [-> ->]].
    + destruct (map_page_spec _ _ _ _ _ (u32_range _) (range_page_aligned p m Hp) Hfl
                  (range_page_aligned v m Hv) Hwf (Hslots m ltac:(lia)) Hstep)
        as (Hwf1 & _ & _).
      rewrite !range_next. apply IH; [lia | lia | exact Hwf1].
    + intros [= _ <-]. exact Hwf.
Qed.

Lemma page_map_well_formed (v p n fl : Z) (s s' : state) (st : status) :
  0 <= v < 2^32 -> 0 <= p < 2^32 -> 0 <= fl < PAGE_SIZE ->
  (forall d, touched v n d -> slots d) ->
  well_formed slots s ->
  page_map owner v p n fl s = (st, s') ->
  well_formed slots s'.
Proof.
  intros Hv Hp Hfl Hslots Hwf. unfold page_map.
  destruct (aligned v) eqn:Hva; [| intros [= _ <-]; exact Hwf].
  destruct (aligned p) eqn:Hpa; [| intros [= _ <-]; exact Hwf].
  simpl.
  rewrite <- (u32_small v Hv) at 1. rewrite <- (u32_small p Hp) at 1.
  replace v with (v + 0 * PAGE_SIZE) at 1 by lia.
  replace p with (p + 0 * PAGE_SIZE) at 1 by lia.
  apply (map_pages_well_formed v p fl (Z.of_nat (Z.to_nat n))).
  - apply aligned_page_aligned; assumption.
  - apply aligned_page_aligned; assumption.
  - exact Hfl.
  - intros j Hj. apply Hslots. exists j. split; [lia | reflexivity].
  - lia.
  - lia.
  - exact Hwf.
Qed.

(** Unmapping a page of a slot in scope writes into that slot's Table and
    keeps the invariants. *)
Lemma unmap_page_well_formed (a : Z) (s : state) :
  slots (pgd_index a) -> well_formed slots s -> well_formed slots (unmap_page a s).
Proof.
  intros Hslot Hwf. unfold unmap_page.
  destruct (has_flag PG_PRESENT (read_entry (phys s) (root s) (pgd_index a))) eqn:Hpde;
    [| exact Hwf].
  destruct (wf_table_apart _ _ Hwf _ Hslot Hpde) as [Hroot _].
  destruct Hwf as [Hap Hown Hnd Hfr Hrt].
  constructor; simpl; try assumption.
  - intros d Hd. rewrite read_write_entry_frame_ne by exact Hroot. apply Hap, Hd.
  - intros d d' Hd Hd'. rewrite !read_write_entry_frame_ne by exact Hroot.
    apply Hown; assumption.
Qed.

End Slots.

(** A page below the Self-Map Window lies outside the recursive slot. *)
Lemma pgd_index_below_window (a : Z) :
  0 <= a < PAGE_MAP_PGT -> pgd_index a <> recursive_slot.
Proof.
  intros Ha. change recursive_slot with 1023. rewrite pgd_index_div.
  change PAGE_MAP_PGT with 4290772992 in Ha. zdiv.
Qed.

(** C1, amended. On an address space of the data model, and for a range
    that ends below the Self-Map Window ([v + n*4096 <= PAGE_MAP_PGT]):
    after a successful [page_map(v, p, n, flags)] with page-aligned [v] and
    [p], [n > 0] and a flag set [flags], every page offset [i < n] has
    [virt_to_phys(v + i*4096) = p + i*4096], the physical address taken in
    [size_t]; and the state the call leaves is an address space of the
    data model again. *)
Theorem page_map_translates (v p n flags : Z) (s s' : state) :
  0 <= v -> page_aligned v ->
  0 <= p < 2^32 -> page_aligned p ->
  0 < n ->
  0 <= flags < PAGE_SIZE ->
  v + n * PAGE_SIZE <= PAGE_MAP_PGT ->
  address_space s ->
  page_map owner v p n flags s = (Success, s') ->
  address_space s' /\
  forall i, 0 <= i < n ->
    virt_to_phys (v + i * 4096) s' = Translated (u32 (p + i * 4096)) /\
    (p + i * 4096 < 2^32 ->
     virt_to_phys (v + i * 4096) s' = Translated (p + i * 4096)).
Proof.
  intros Hv0 Hva Hp Hpa Hn Hfl Hend Hwf.
  change PAGE_SIZE with 4096 in Hend. change PAGE_MAP_PGT with 4290772992 in Hend.
  assert (Hv : 0 <= v < 2^32) by (change (2^32) with 4294967296; lia).
  assert (Hpage : forall j, 0 <= j < n -> u32 (v + j * PAGE_SIZE) = v + j * 4096).
  { intros j Hj. change PAGE_SIZE with 4096. apply u32_small.
    change (2^32) with 4294967296. lia. }
  unfold page_map.
  rewrite (aligned_true v Hv Hva), (aligned_true p Hp Hpa). simpl.
  rewrite <- (u32_small v Hv) at 1. rewrite <- (u32_small p Hp) at 1.
  replace v with (v + 0 * PAGE_SIZE) at 1 by lia.
  replace p with (p + 0 * PAGE_SIZE) at 1 by lia.
  intros Hmap.
  apply (map_pages_spec (fun d => d <> recursive_slot) v p flags n Hva Hpa Hfl) in Hmap;
    try lia.
  - destruct Hmap as [Hwf' Hall]. split; [exact Hwf' |]. intros i Hi.
    pose proof (Hall i Hi) as Hi'. rewrite (Hpage i Hi) in Hi'.
    change PAGE_SIZE with 4096 in Hi'.
    split; [exact Hi' |].
    intros Hpi. rewrite u32_small in Hi' by lia. exact Hi'.
  - intros j Hj. rewrite (Hpage j Hj). apply pgd_index_below_window.
    change PAGE_MAP_PGT with 4290772992. lia.
  - exact Hwf.
Qed.

(** *** Unmapping *)

(** The page just unmapped no longer translates. *)
Lemma unmap_page_absent (a : Z) (s : state) :
  virt_to_phys a (unmap_page a s) = Failed NotPresent.
Proof.
  unfold unmap_page.
  destruct (has_flag PG_PRESENT (read_entry (phys s) (root s) (pgd_index a))) eqn:Hpde.
  - unfold virt_to_phys. simpl. rewrite read_write_entry.
    case_decide as Hhit.
    + rewrite cleared_entry_absent. reflexivity.
    + rewrite Hpde, read_write_entry_eq, cleared_entry_absent. reflexivity.
  - unfold virt_to_phys. rewrite Hpde. reflexivity.
Qed.

(** Unmapping never makes a page translate. *)
Lemma unmap_page_keeps_absent (a b : Z) (s : state) :
  virt_to_phys b s = Failed NotPresent ->
  virt_to_phys b (unmap_page a s) = Failed NotPresent.
Proof.
  unfold unmap_page.
  destruct (has_flag PG_PRESENT (read_entry (phys s) (root s) (pgd_index a))) eqn:Hpde;
    [| trivial].
  unfold virt_to_phys. simpl. intros Hb. rewrite read_write_entry.
  case_decide as Hhit.
  - rewrite cleared_entry_absent. reflexivity.
  - destruct (has_flag PG_PRESENT (read_entry (phys s) (root s) (pgd_index b))); [| reflexivity].
    rewrite read_write_entry. case_decide as Hhit'.
    + rewrite cleared_entry_absent. reflexivity.
    + exact Hb.
Qed.

Lemma unmap_pages_keeps_absent (k : nat) (a b : Z) (s : state) :
  virt_to_phys b s = Failed NotPresent ->
  virt_to_phys b (unmap_pages k a s) = Failed NotPresent.
Proof.
  revert a s. induction k as [|k IH]; intros a s Hb; simpl; [exact Hb |].
  apply IH, unmap_page_keeps_absent, Hb.
Qed.

Lemma unmap_pages_absent (k : nat) (v : Z) (s : state) :
  forall j, 0 <= j < Z.of_nat k ->
    virt_to_phys (u32 (u32 v + j * PAGE_SIZE)) (unmap_pages k (u32 v) s) = Failed NotPresent.
Proof.
  revert v s. induction k as [|k IH]; intros v s j Hj; [lia |]. simpl.
  destruct (decide (j = 0)) as [->|Hj0].
  - replace (u32 (u32 v + 0 * PAGE_SIZE)) with (u32 v).
    + apply unmap_pages_keeps_absent, unmap_page_absent.
    + unfold u32. change (2^32) with 4294967296. zdiv.
  - replace (u32 (u32 v + j * PAGE_SIZE))
      with (u32 (u32 (add_u32 (u32 v) PAGE_SIZE) + (j - 1) * PAGE_SIZE)).
    + replace (add_u32 (u32 v) PAGE_SIZE) with (u32 (add_u32 (u32 v) PAGE_SIZE)) at 2.
      * apply IH. lia.
      * unfold add_u32, u32. change (2^32) with 4294967296. zdiv.
    + unfold add_u32, u32. change PAGE_SIZE with 4096.
      change (2^32) with 4294967296. zdiv.
Qed.

(** C3. [page_unmap(v, n)] on a range that a successful [page_map] mapped
    before: the call succeeds, and [virt_to_phys] signals not-present on
    each of the [n] pages instead of returning a physical address (the
    page addresses [v + i*4096] taken in [size_t], and as they stand where
    they do not leave the 32 bits). *)
Theorem page_unmap_not_present (v p n flags : Z) (s s1 : state) :
  0 <= v < 2^32 -> page_aligned v ->
  page_map owner v p n flags s = (Success, s1) ->
  fst (page_unmap v n s1) = Success /\
  forall i, 0 <= i < n ->
    virt_to_phys (u32 (v + i * 4096)) (snd (page_unmap v n s1)) = Failed NotPresent /\
    (v + i * 4096 < 2^32 ->
     virt_to_phys (v + i * 4096) (snd (page_unmap v n s1)) = Failed NotPresent).
Proof.
  intros Hv Hva _. unfold page_unmap.
  rewrite (aligned_true v Hv Hva). simpl. split; [reflexivity |].
  intros i Hi.
  assert (Hgone : virt_to_phys (u32 (v + i * 4096)) (unmap_pages (Z.to_nat n) v s1)
                  = Failed NotPresent).
  { rewrite <- (u32_small v Hv). apply (unmap_pages_absent (Z.to_nat n) v s1 i). lia. }
  split; [exact Hgone |].
  intros Hvi. rewrite u32_small in Hgone by lia. exact Hgone.
Qed.

(** *** Dropping an address space *)

(** Releasing touches the Frame Allocator only: the frames referenced go
    onto its free list, last released first. *)
Lemma drop_leaves_spec (tbl : Z) (ts : list Z) (s : state) :
  phys (foldl (drop_leaf tbl) s ts) = phys s /\
  root (foldl (drop_leaf tbl) s ts) = root s /\
  free_frames (foldl (drop_leaf tbl) s ts) =
    rev (omap (leaf_ref (phys s) tbl) ts) ++ free_frames s.
Proof.
  revert s. induction ts as [|t ts IH]; intros s; cbn [foldl omap list_omap rev].
  - split_and!; reflexivity.
  - destruct (IH (drop_leaf tbl s t)) as (Hphys & Hroot & Hfree).
    rewrite Hphys, Hroot, Hfree. unfold drop_leaf, leaf_ref.
    destruct (has_flag PG_PRESENT (read_entry (phys s) tbl t)).
    + cbn [phys root free_frames put_page rev]. rewrite <- app_assoc.
      split_and!; reflexivity.
    + split_and!; reflexivity.
Qed.

Lemma put_table_spec (tbl : Z) (ts : list Z) (s : state) :
  phys (put_page tbl (foldl (drop_leaf tbl) s ts)) = phys s /\
  root (put_page tbl (foldl (drop_leaf tbl) s ts)) = root s /\
  free_frames (put_page tbl (foldl (drop_leaf tbl) s ts)) =
    rev (omap (leaf_ref (phys s) tbl) ts ++ [tbl]) ++ free_frames s.
Proof.
  destruct (drop_leaves_spec tbl ts s) as (Hphys & Hroot & Hfree).
  unfold put_page. cbn [phys root free_frames].
  rewrite Hfree, rev_app_distr. split_and!; [exact Hphys | exact Hroot | reflexivity].
Qed.

Lemma drop_table_spec (tbl : Z) (s : state) :
  phys (drop_table tbl s) = phys s /\
  root (drop_table tbl s) = root s /\
  free_frames (drop_table tbl s) =
    rev (leaf_refs (phys s) tbl ++ [tbl]) ++ free_frames s.
Proof. exact (put_table_spec tbl page_map_indices s). Qed.

Lemma drop_slot_spec (map d : Z) (s : state) :
  phys (drop_slot owner map s d) = phys s /\
  root (drop_slot owner map s d) = root s /\
  free_frames (drop_slot owner map s d) =
    rev (if held_by owner Exclusive d then slot_refs (phys s) map d else [])
      ++ free_frames s.
Proof.
  unfold drop_slot, held_by, slot_refs.
  destruct (owner d); [split_and!; reflexivity |].
  destruct (has_flag PG_PRESENT (read_entry (phys s) map d)).
  - apply drop_table_spec.
  - split_and!; reflexivity.
Qed.

Lemma drop_slots_spec (map : Z) (ds : list Z) (s : state) :
  phys (foldl (drop_slot owner map) s ds) = phys s /\
  root (foldl (drop_slot owner map) s ds) = root s /\
  free_frames (foldl (drop_slot owner map) s ds) =
    rev (concat (List.map (slot_refs (phys s) map)
                   (List.filter (held_by owner Exclusive) ds))) ++ free_frames s.
Proof.
  revert s. induction ds as [|d ds IH]; intros s; cbn [foldl List.filter].
  - split_and!; reflexivity.
  - destruct (IH (drop_slot owner map s d)) as (Hphys & Hroot & Hfree).
    destruct (drop_slot_spec map d s) as (Hphys1 & Hroot1 & Hfree1).
    rewrite Hphys, Hroot, Hfree, Hphys1, Hroot1, Hfree1.
    destruct (held_by owner Exclusive d); cbn [List.map concat].
    + rewrite rev_app_distr, <- app_assoc. split_and!; reflexivity.
    + split_and!; reflexivity.
Qed.

Lemma page_map_drop_spec (map : Z) (s : state) :
  fst (page_map_drop owner map s) = Success /\
  phys (snd (page_map_drop owner map s)) = phys s /\
  root (snd (page_map_drop owner map s)) = root s /\
  free_frames (snd (page_map_drop owner map s)) =
    rev (refs_of owner Exclusive (phys s) map) ++ free_frames s.
Proof.
  split; [reflexivity |].
  exact (drop_slots_spec map page_map_indices s).
Qed.

(** The list of references and the predicate agree: nothing the
    private/user range holds is missing from the list. *)
Lemma page_map_indices_range (i : Z) :
  i ∈ page_map_indices <-> 0 <= i < PAGE_MAP_ENTRIES.
Proof.
  unfold page_map_indices. rewrite elem_of_seqZ. change PAGE_MAP_ENTRIES with 1024. lia.
Qed.

Lemma leaf_refs_leaf_of (m : gmap Z (gmap Z Z)) (tbl f : Z) :
  f ∈ leaf_refs m tbl <-> leaf_of m tbl f.
Proof.
  unfold leaf_refs, leaf_of. rewrite list_elem_of_omap. split.
  - intros (t & Ht & Hleaf). exists t. apply page_map_indices_range in Ht.
    unfold leaf_ref in Hleaf.
    destruct (has_flag PG_PRESENT (read_entry m tbl t)); [| discriminate Hleaf].
    injection Hleaf as Hleaf. auto.
  - intros (t & Ht & Hp & Hf). exists t. split; [apply page_map_indices_range, Ht |].
    unfold leaf_ref. rewrite Hp, Hf. reflexivity.
Qed.

Lemma refs_of_user_held (m : gmap Z (gmap Z Z)) (map f : Z) :
  f ∈ refs_of owner Exclusive m map <-> user_held owner m map f.
Proof.
  unfold refs_of, user_held.
  rewrite list_elem_of_In, in_concat. split.
  - intros (l & Hl & Hf). apply in_map_iff in Hl as (d & <- & Hd).
    apply filter_In in Hd as [Hd Hheld].
    apply list_elem_of_In, page_map_indices_range in Hd.
    exists d. split; [exact Hd |]. split.
    { unfold held_by in Hheld. destruct (owner d); [discriminate Hheld | reflexivity]. }
    unfold slot_refs in Hf.
    destruct (has_flag PG_PRESENT (read_entry m map d)); [| destruct Hf].
    split; [reflexivity |].
    apply list_elem_of_In, elem_of_app in Hf as [Hf | Hf].
    + right. apply leaf_refs_leaf_of, Hf.
    + left. apply list_elem_of_singleton in Hf. symmetry. exact Hf.
  - intros (d & Hd & Hown & Hp & Hf).
    exists (slot_refs m map d). split.
    + apply in_map_iff. exists d. split; [reflexivity |].
      apply filter_In. split; [apply list_elem_of_In, page_map_indices_range, Hd |].
      unfold held_by. rewrite Hown. reflexivity.
    + unfold slot_refs. rewrite Hp. apply list_elem_of_In, elem_of_app.
      destruct Hf as [<- | Hf].
      * right. apply list_elem_of_singleton. reflexivity.
      * left. apply leaf_refs_leaf_of, Hf.
Qed.

(** C2, amended. [page_map_drop(map)] releases one frame to the Frame
    Allocator for each reference the private/user range of [map] holds, a
    present leaf or a Table, and nothing else: whatever a present
    private/user-range entry among the Directory's 1024 holds, the Table
    or one of its 1024 leaves, is released, so nothing leaks. Physical
    memory, and with it every Directory entry and every Table, stays as
    it was. So a frame the user range references once, the exclusively
    owned frame, is released exactly once, and is free exactly once
    afterwards unless it was free before; a frame the user range does not
    reference is not released, its allocation state unchanged; and a frame
    referenced from the shared/kernel range is released exactly when the
    user range references it too. *)
Theorem page_map_drop_releases_per_reference (map : Z) (s : state) :
  exists (s' : state) (released : list Z),
    page_map_drop owner map s = (Success, s') /\
    phys s' = phys s /\ root s' = root s /\
    shared_refs owner (phys s') map = shared_refs owner (phys s) map /\
    free_frames s' = released ++ free_frames s /\
    released ≡ₚ refs_of owner Exclusive (phys s) map /\
    (forall f, f ∈ released <-> user_held owner (phys s) map f) /\
    (forall f, count_occ Z.eq_dec (refs_of owner Exclusive (phys s) map) f = 1%nat ->
       count_occ Z.eq_dec released f = 1%nat /\
       (f ∉ free_frames s -> count_occ Z.eq_dec (free_frames s') f = 1%nat)) /\
    (forall f, f ∉ refs_of owner Exclusive (phys s) map ->
       (f ∉ released) /\
       count_occ Z.eq_dec (free_frames s') f = count_occ Z.eq_dec (free_frames s) f) /\
    (forall f, f ∈ shared_refs owner (phys s) map ->
       (f ∈ released <-> f ∈ refs_of owner Exclusive (phys s) map)).
Proof.
  destruct (page_map_drop_spec map s) as (Hst & Hphys & Hroot & Hfree).
  destruct (page_map_drop owner map s) as [st s'].
  cbn [fst snd] in Hst, Hphys, Hroot, Hfree. subst st.
  pose proof (fun f => refs_of_user_held (phys s) map f) as Hheld.
  revert Hfree Hheld.
  generalize (refs_of owner Exclusive (phys s) map). intros owned Hfree Hheld.
  assert (Hperm : rev owned ≡ₚ owned) by (symmetry; apply Permutation_rev).
  exists s', (rev owned).
  split_and!.
  - reflexivity.
  - exact Hphys.
  - exact Hroot.
  - rewrite Hphys. reflexivity.
  - exact Hfree.
  - exact Hperm.
  - intros f. rewrite Hperm. apply Hheld.
  - intros f Hone. rewrite count_occ_rev. split; [exact Hone |].
    intros Hnf. rewrite Hfree, count_occ_app, count_occ_rev, Hone.
    rewrite list_elem_of_In in Hnf.
    apply (count_occ_not_In Z.eq_dec) in Hnf. lia.
  - intros f Hnot.
    assert (Hnot' : f ∉ rev owned) by (rewrite Hperm; exact Hnot).
    split; [exact Hnot' |].
    rewrite Hfree, count_occ_app.
    rewrite list_elem_of_In in Hnot'.
    apply (count_occ_not_In Z.eq_dec) in Hnot'. lia.
  - intros f _. rewrite Hperm. reflexivity.
Qed.

End AddressSpace.

(** *** The scenarios *)

(** The Directory of the scenarios: slot 0 and the recursive slot. *)
Lemma scenario_directory (d : Z) :
  read_entry scenario_phys 0x1000 d =
    if decide (d = 0) then Z.lor 0x2000 (Z.lor PG_PRESENT PG_RW)
    else if decide (d = 1023) then Z.lor 0x1000 (Z.lor PG_PRESENT PG_RW)
    else 0.
Proof.
  unfold scenario_phys. rewrite !read_write_entry.
  destruct (decide (d = 0)) as [-> | H0]; [reflexivity |].
  destruct (decide (d = 1023)) as [-> | H1]; [reflexivity |].
  rewrite !decide_False by (intros [Hf Hd]; first [discriminate Hf | congruence]).
  reflexivity.
Qed.

Lemma scenario_start_address_space : address_space scenario_start.
Proof.
  assert (Hslot : forall d, d <> recursive_slot ->
            has_flag PG_PRESENT (read_entry (phys scenario_start) (root scenario_start) d) = true ->
            d = 0).
  { intros d Hd. change (phys scenario_start) with scenario_phys.
    change (root scenario_start) with 0x1000. rewrite scenario_directory.
    destruct (decide (d = 0)) as [-> | H0]; [reflexivity |].
    destruct (decide (d = 1023)) as [-> | H1]; [contradiction |].
    intros H. discriminate H. }
  constructor.
  - intros d Hd Hp. rewrite (Hslot d Hd Hp). vm_compute.
    split; [intros H; discriminate H |].
    intros H. apply elem_of_cons in H as [H | H]; [discriminate H |].
    apply elem_of_cons in H as [H | H]; [discriminate H |].
    apply elem_of_nil in H. exact H.
  - intros d d' Hd Hd' Hp Hp' _.
    rewrite (Hslot d Hd Hp), (Hslot d' Hd' Hp'). reflexivity.
  - change (free_frames scenario_start) with [0x200000; 0x201000].
    apply (bool_decide_unpack _). vm_compute. reflexivity.
  - change (free_frames scenario_start) with [0x200000; 0x201000].
    intros f Hf. apply elem_of_cons in Hf as [-> | Hf].
    { vm_compute. repeat split; congruence. }
    apply elem_of_cons in Hf as [-> | Hf].
    { vm_compute. repeat split; congruence. }
    apply elem_of_nil in Hf. destruct Hf.
  - change (root scenario_start ∉ free_frames scenario_start)
      with (0x1000 ∉ [0x200000; 0x201000]).
    apply (bool_decide_unpack _). vm_compute. reflexivity.
Qed.

Lemma page_map_translates_scenario_A :
  virt_to_phys 0x40000000 scenario_A = Translated 0x00100000 /\
  virt_to_phys 0x40001000 scenario_A = Translated 0x00101000 /\
  virt_to_phys 0x40002000 scenario_A = Translated 0x00102000.
Proof.
  assert (Hv : 0 <= 0x40000000) by (vm_compute; congruence).
  assert (Hp : 0 <= 0x00100000 < 2^32) by (vm_compute; split; congruence).
  assert (Hfl : 0 <= Z.lor (Z.lor PG_PRESENT PG_RW) PG_USER < PAGE_SIZE)
    by (vm_compute; split; congruence).
  assert (Hend : 0x40000000 + 3 * PAGE_SIZE <= PAGE_MAP_PGT) by (vm_compute; congruence).
  assert (Hmap : page_map scenario_owner 0x40000000 0x00100000 3
                   (Z.lor (Z.lor PG_PRESENT PG_RW) PG_USER) scenario_start
                 = (Success, scenario_A)) by (vm_compute; reflexivity).
  pose proof (proj2 (page_map_translates scenario_owner 0x40000000 0x00100000 3
                (Z.lor (Z.lor PG_PRESENT PG_RW) PG_USER) scenario_start scenario_A
                Hv eq_refl Hp eq_refl eq_refl Hfl Hend scenario_start_address_space Hmap))
    as H.
  split; [| split].
  - exact (proj1 (H 0 ltac:(lia))).
  - exact (proj1 (H 1 ltac:(lia))).
  - exact (proj1 (H 2 ltac:(lia))).
Defined.

(** On the address space of the scenarios [page_map] succeeds on the last
    page of the Self-Map Window, 0xFFFFF000, whose leaf Entry is the
    recursive entry of the Directory; the page does not translate
    afterwards. The same happens to the first page of a range that starts
    below the window, at 0xFFBFF000, and runs into it without reaching its
    last page. *)
Lemma page_map_over_self_map_window :
  address_space scenario_start /\
  page_aligned 0xFFFFF000 /\ page_aligned 0x00500000 /\
  fst (page_map scenario_owner 0xFFFFF000 0x00500000 1 (Z.lor PG_PRESENT PG_RW)
         scenario_start) = Success /\
  virt_to_phys 0xFFFFF000
    (snd (page_map scenario_owner 0xFFFFF000 0x00500000 1 (Z.lor PG_PRESENT PG_RW)
            scenario_start)) = Failed NotPresent /\
  page_aligned 0xFFBFF000 /\
  fst (page_map scenario_owner 0xFFBFF000 0x00500000 1024 (Z.lor PG_PRESENT PG_RW)
         scenario_start) = Success /\
  virt_to_phys 0xFFBFF000
    (snd (page_map scenario_owner 0xFFBFF000 0x00500000 1024 (Z.lor PG_PRESENT PG_RW)
            scenario_start)) = Failed NotPresent.
Proof.
  split; [exact scenario_start_address_space |].
  vm_compute. repeat split; reflexivity.
Qed.

Lemma page_unmap_not_present_scenario_B :
  fst (page_unmap 0x40000000 3 scenario_A) = Success /\
  virt_to_phys 0x40000000 scenario_B = Failed NotPresent /\
  virt_to_phys 0x40001000 scenario_B = Failed NotPresent /\
  virt_to_phys 0x40002000 scenario_B = Failed NotPresent.
Proof.
  assert (Hv : 0 <= 0x40000000 < 2^32) by (vm_compute; split; congruence).
  assert (Hmap : page_map scenario_owner 0x40000000 0x00100000 3
                   (Z.lor (Z.lor PG_PRESENT PG_RW) PG_USER) scenario_start
                 = (Success, scenario_A)) by (vm_compute; reflexivity).
  destruct (page_unmap_not_present scenario_owner 0x40000000 0x00100000 3
              (Z.lor (Z.lor PG_PRESENT PG_RW) PG_USER) scenario_start scenario_A
              Hv eq_refl Hmap) as [Hst H].
  split; [exact Hst |]. split; [| split].
  - exact (proj1 (H 0 ltac:(lia))).
  - exact (proj1 (H 1 ltac:(lia))).
  - exact (proj1 (H 2 ltac:(lia))).
Defined.

Lemma page_map_drop_scenario_A :
  exists s' released,
    page_map_drop scenario_owner 0x1000 scenario_A = (Success, s') /\
    phys s' = phys scenario_A /\
    free_frames s' = released ++ [0x201000] /\
    released ≡ₚ [0x00100000; 0x00101000; 0x00102000; 0x200000] /\
    Forall (fun f => count_occ Z.eq_dec released f = 1%nat)
      [0x00100000; 0x00101000; 0x00102000; 0x200000] /\
    Forall (fun f => f ∉ released) [0x00300000; 0x2000; 0x1000].
Proof.
  assert (Hown : refs_of scenario_owner Exclusive (phys scenario_A) 0x1000
                 = [0x00100000; 0x00101000; 0x00102000; 0x200000])
    by (vm_compute; reflexivity).
  assert (Hfree : free_frames scenario_A = [0x201000]) by (vm_compute; reflexivity).
  destruct (page_map_drop_releases_per_reference scenario_owner 0x1000 scenario_A)
    as (s' & released & Hdrop & Hphys & _ & _ & Hfr & Hperm & _ & Hone & Hnone & _).
  rewrite Hown in Hperm, Hone, Hnone. rewrite Hfree in Hfr.
  exists s', released.
  split; [exact Hdrop |]. split; [exact Hphys |]. split; [exact Hfr |].
  split; [exact Hperm |]. split.
  - repeat (apply List.Forall_cons; [apply Hone; reflexivity |]). apply List.Forall_nil.
  - repeat (apply List.Forall_cons;
            [apply Hnone; apply (bool_decide_unpack _); vm_compute; reflexivity |]).
    apply List.Forall_nil.
Defined.

(** Two address spaces that [page_map] builds from scenario A. In the
    first a frame that only the user range references, twice, is released
    twice. In the second a frame that the shared/kernel range references,
    and that was not free, is released. *)
Lemma page_map_drop_aliased_frames :
  (0x00100000 ∉ shared_refs scenario_owner (phys scenario_aliased) 0x1000) /\
  (0x00100000 ∉ free_frames scenario_aliased) /\
  count_occ Z.eq_dec
    (free_frames (snd (page_map_drop scenario_owner 0x1000 scenario_aliased)))
    0x00100000 = 2%nat /\
  0x00300000 ∈ shared_refs scenario_owner (phys scenario_kernel_frame) 0x1000 /\
  (0x00300000 ∉ free_frames scenario_kernel_frame) /\
  0x00300000 ∈ free_frames (snd (page_map_drop scenario_owner 0x1000 scenario_kernel_frame)).
Proof.
  assert (Hs1 : shared_refs scenario_owner (phys scenario_aliased) 0x1000
                = [0x00300000; 0x2000; 0x1000]) by (vm_compute; reflexivity).
  assert (Hf1 : free_frames scenario_aliased = [0x201000]) by (vm_compute; reflexivity).
  assert (Hs2 : shared_refs scenario_owner (phys scenario_kernel_frame) 0x1000
                = [0x00300000; 0x2000; 0x1000]) by (vm_compute; reflexivity).
  assert (Hf2 : free_frames scenario_kernel_frame = [0x201000]) by (vm_compute; reflexivity).
  assert (Hd2 : free_frames (snd (page_map_drop scenario_owner 0x1000 scenario_kernel_frame))
                = [0x200000; 0x00300000; 0x00102000; 0x00101000; 0x00100000; 0x201000])
    by (vm_compute; reflexivity).
  rewrite Hs1, Hf1, Hs2, Hf2, Hd2.
  split_and!.
  - apply (bool_decide_unpack _). vm_compute. reflexivity.
  - apply (bool_decide_unpack _). vm_compute. reflexivity.
  - vm_compute. reflexivity.
  - apply (bool_decide_unpack _). vm_compute. reflexivity.
  - apply (bool_decide_unpack _). vm_compute. reflexivity.
  - apply (bool_decide_unpack _). vm_compute. reflexivity.
Qed.

(** The recursive slot at work: through it the window addresses of C6
    translate to the frames of the active Directory and of the Table of
    directory slot 0. *)
Example scenario_self_map :
  virt_to_phys PAGE_MAP_PGD scenario_start = Translated (root scenario_start) /\
  virt_to_phys (pgt_window 0) scenario_start = Translated 0x2000 /\
  virt_to_phys (pgt_window 256) scenario_start = Failed NotPresent /\
  virt_to_phys (pgt_window 256) scenario_A = Translated 0x200000.
Proof. vm_compute. repeat split; reflexivity. Qed.

(** A range that needs two new Tables when one frame is free: the second
    allocation fails, the call reports it, and the first page stays mapped. *)
Example scenario_partial_failure :
  let s := {| phys := scenario_phys; root := 0x1000; free_frames := [0x200000] |} in
  fst (page_map scenario_owner 0x403FF000 0x00100000 2 PG_RW s) = AllocationFailure /\
  virt_to_phys 0x403FF000 (snd (page_map scenario_owner 0x403FF000 0x00100000 2 PG_RW s))
    = Translated 0x00100000 /\
  virt_to_phys 0x40400000 (snd (page_map scenario_owner 0x403FF000 0x00100000 2 PG_RW s))
    = Failed NotPresent.
Proof. vm_compute. repeat split; reflexivity. Qed.

(** The invariants of the data model are needed below the window as well.
    With a Frame Allocator that supplies frame 0x200000 twice, a range of
    two pages that needs two new Tables gets the same frame for both;
    zeroing the second Table wipes the leaf of the first page. *)
Example scenario_frame_supplied_twice :
  let s := {| phys := scenario_phys; root := 0x1000;
              free_frames := [0x200000; 0x200000] |} in
  fst (page_map scenario_owner 0x403FF000 0x00100000 2 PG_RW s) = Success /\
  virt_to_phys 0x403FF000 (snd (page_map scenario_owner 0x403FF000 0x00100000 2 PG_RW s))
    = Failed NotPresent /\
  virt_to_phys 0x40400000 (snd (page_map scenario_owner 0x403FF000 0x00100000 2 PG_RW s))
    = Translated 0x00101000.
Proof. vm_compute. repeat split; reflexivity. Qed.

(** A misaligned address is reported and nothing is mapped. *)
Example scenario_misaligned :
  page_map scenario_owner 0x40000010 0x00100000 1 PG_RW scenario_start
    = (Misaligned, scenario_start).
Proof. vm_compute. reflexivity. Qed.

(** * Further properties of the headers *)

(** ** processor.h: bit scans *)

Lemma scan_down_spec (n : nat) (src : Z) :
  (exists k, 0 <= k < Z.of_nat n /\ Z.testbit src k = true) ->
  0 <= Cpu.scan_down n src < Z.of_nat n /\
  Z.testbit src (Cpu.scan_down n src) = true /\
  forall k, Cpu.scan_down n src < k < Z.of_nat n -> Z.testbit src k = false.
Proof.
  induction n as [|n IH]; intros (k & Hk & Hbit); [lia |].
  cbn [Cpu.scan_down].
  destruct (Z.testbit src (Z.of_nat n)) eqn:Htop.
  - split_and!; [lia | lia | exact Htop | intros j Hj; lia].
  - assert (Hlow : exists k, 0 <= k < Z.of_nat n /\ Z.testbit src k = true).
    { exists k. split; [| exact Hbit].
      destruct (decide (k = Z.of_nat n)) as [-> | Hne]; [congruence | lia]. }
    destruct (IH Hlow) as (Hr & Hset & Habove).
    split_and!; [lia | lia | exact Hset |].
    intros j Hj. destruct (decide (j = Z.of_nat n)) as [-> | Hne]; [exact Htop |].
    apply Habove. lia.
Qed.

Lemma scan_up_spec (n : nat) (pos src : Z) :
  (exists k, pos <= k < pos + Z.of_nat n /\ Z.testbit src k = true) ->
  pos <= Cpu.scan_up n pos src < pos + Z.of_nat n /\
  Z.testbit src (Cpu.scan_up n pos src) = true /\
  forall k, pos <= k < Cpu.scan_up n pos src -> Z.testbit src k = false.
Proof.
  revert pos. induction n as [|n IH]; intros pos (k & Hk & Hbit); [lia |].
  cbn [Cpu.scan_up].
  destruct (Z.testbit src pos) eqn:Hhere.
  - split_and!; [lia | lia | exact Hhere | intros j Hj; lia].
  - assert (Hrest : exists k, pos + 1 <= k < pos + 1 + Z.of_nat n /\ Z.testbit src k = true).
    { exists k. split; [| exact Hbit].
      destruct (decide (k = pos)) as [-> | Hne]; [congruence | lia]. }
    destruct (IH (pos + 1) Hrest) as (Hr & Hset & Hbelow).
    split_and!; [lia | lia | exact Hset |].
    intros j Hj. destruct (decide (j = pos)) as [-> | Hne]; [exact Hhere |].
    apply Hbelow. lia.
Qed.

(** A nonzero 32-bit word has a set bit among its 32. *)
Lemma nonzero_has_bit (i : Z) :
  0 < i < 2^32 -> exists k, 0 <= k < 32 /\ Z.testbit i k = true.
Proof.
  intros Hi. exists (Z.log2 i). split.
  - split; [apply Z.log2_nonneg |]. apply Z.log2_lt_pow2; lia.
  - apply Z.bit_log2. lia.
Qed.

(** The value [msb] returns on a nonzero word, bit by bit. *)
Lemma msb_bits (i : Z) :
  0 < i < 2^32 ->
  0 <= Cpu.msb i <= 31 /\
  Z.testbit i (Cpu.msb i) = true /\
  (forall k, Cpu.msb i < k -> Z.testbit i k = false).
Proof.
  intros Hi. unfold Cpu.msb.
  destruct (Z.eqb_spec i 0) as [-> | _]; [lia |].
  unfold Cpu.insn_bsr.
  destruct (scan_down_spec 32 i (nonzero_has_bit i Hi)) as (Hr & Hset & Habove).
  set (r := Cpu.scan_down 32 i) in *.
  split_and!; try lia; try assumption.
  intros k Hk. destruct (Z_lt_le_dec k 32) as [Hlt | Hge].
  - apply Habove. lia.
  - apply (testbit_above i 32); lia.
Qed.

(** The value [lsb] returns on a nonzero word, bit by bit. *)
Lemma lsb_bits (i : Z) :
  0 < i < 2^32 ->
  0 <= Cpu.lsb i <= 31 /\
  Z.testbit i (Cpu.lsb i) = true /\
  (forall k, 0 <= k < Cpu.lsb i -> Z.testbit i k = false).
Proof.
  intros Hi. unfold Cpu.lsb.
  destruct (Z.eqb_spec i 0) as [-> | _]; [lia |].
  unfold Cpu.insn_bsf.
  destruct (scan_up_spec 32 0 i (nonzero_has_bit i Hi)) as (Hr & Hset & Hbelow).
  set (r := Cpu.scan_up 32 0 i) in *.
  split_and!; try lia; try assumption.
Qed.

(** X1. For a nonzero 32-bit word [msb] is the position of its highest set
    bit, the binary logarithm: the bit at [msb i] is set, no bit above it
    is, and 2^(msb i) <= i < 2^(msb i + 1). *)
Theorem msb_highest_bit (i : Z) :
  0 < i < 2^32 ->
  0 <= Cpu.msb i <= 31 /\
  Z.testbit i (Cpu.msb i) = true /\
  (forall k, Cpu.msb i < k -> Z.testbit i k = false) /\
  Cpu.msb i = Z.log2 i /\
  2^(Cpu.msb i) <= i < 2^(Cpu.msb i + 1).
Proof.
  intros Hi. destruct (msb_bits i Hi) as (Hr & Hset & Hall).
  set (r := Cpu.msb i) in *.
  assert (Hlog : r = Z.log2 i).
  { apply Z.le_antisymm.
    - destruct (Z_lt_le_dec (Z.log2 i) r) as [Hlt | Hle]; [| exact Hle].
      rewrite (Z.bits_above_log2 i r) in Hset by lia. discriminate.
    - destruct (Z_lt_le_dec r (Z.log2 i)) as [Hlt | Hle]; [| exact Hle].
      pose proof (Z.bit_log2 i ltac:(lia)) as Hb.
      rewrite (Hall (Z.log2 i) Hlt) in Hb. discriminate. }
  split_and!; try lia; try assumption.
  - rewrite Hlog. apply Z.log2_spec. lia.
  - rewrite Hlog. replace (Z.log2 i + 1) with (Z.succ (Z.log2 i)) by lia.
    apply Z.log2_spec. lia.
Qed.

Lemma msb_highest_bit_example :
  0 < 0x00012345 < 2^32 /\ Cpu.msb 0x00012345 = 16 /\
  2^16 <= 0x00012345 < 2^17.
Proof.
  assert (Hi : 0 < 0x00012345 < 2^32) by (vm_compute; split; reflexivity).
  destruct (msb_highest_bit 0x00012345 Hi) as (_ & _ & _ & _ & Hb).
  split; [exact Hi |]. split; [reflexivity | exact Hb].
Defined.

(** X2. For a nonzero 32-bit word [lsb] is the position of its lowest set
    bit: the bit at [lsb i] is set, no bit below it is, and 2^(lsb i) is
    the largest power of two that divides [i]. *)
Theorem lsb_lowest_bit (i : Z) :
  0 < i < 2^32 ->
  0 <= Cpu.lsb i <= 31 /\
  Z.testbit i (Cpu.lsb i) = true /\
  (forall k, 0 <= k < Cpu.lsb i -> Z.testbit i k = false) /\
  i mod 2^(Cpu.lsb i) = 0 /\
  i mod 2^(Cpu.lsb i + 1) <> 0.
Proof.
  intros Hi. destruct (lsb_bits i Hi) as (Hr & Hset & Hbelow).
  set (r := Cpu.lsb i) in *.
  split_and!; try lia; try assumption.
  - apply Z.bits_inj'. intros n Hn. rewrite Z.bits_0.
    destruct (Z_lt_le_dec n r) as [Hlt | Hge].
    + rewrite Z.mod_pow2_bits_low by lia. apply Hbelow. lia.
    + apply Z.mod_pow2_bits_high. lia.
  - intros Hdiv.
    rewrite (testbit_below i (r + 1) r Hdiv) in Hset by lia. discriminate.
Qed.

Lemma lsb_lowest_bit_example :
  0 < 0xFFFFF000 < 2^32 /\ Cpu.lsb 0xFFFFF000 = 12 /\ 0xFFFFF000 mod 2^12 = 0.
Proof.
  assert (Hi : 0 < 0xFFFFF000 < 2^32) by (vm_compute; split; reflexivity).
  destruct (lsb_lowest_bit 0xFFFFF000 Hi) as (_ & _ & _ & Hdiv & _).
  split; [exact Hi |]. split; [reflexivity | exact Hdiv].
Defined.

(** X3. For the word 0 both scans return 32, [sizeof(size_t) * 8], and for
    no other 32-bit word: the value is outside the bit positions 0 to 31,
    so a caller can tell the empty word from every other. *)
Theorem bit_scan_of_zero :
  Cpu.msb 0 = 32 /\ Cpu.lsb 0 = 32 /\
  forall i, 0 <= i < 2^32 ->
    (Cpu.msb i = 32 <-> i = 0) /\ (Cpu.lsb i = 32 <-> i = 0) /\
    0 <= Cpu.msb i <= 32 /\ 0 <= Cpu.lsb i <= 32.
Proof.
  split; [reflexivity |]. split; [reflexivity |].
  intros i Hi. destruct (decide (i = 0)) as [-> | Hne].
  - split_and!; try (vm_compute; congruence); split; reflexivity.
  - assert (Hpos : 0 < i < 2^32) by lia.
    destruct (msb_bits i Hpos) as (Hm & _).
    destruct (lsb_bits i Hpos) as (Hl & _).
    split_and!; try lia; split; intros; lia.
Qed.

Lemma bit_scan_of_zero_example :
  0 <= 0x80000000 < 2^32 /\ Cpu.msb 0x80000000 <> 32 /\ Cpu.lsb 0x80000000 <> 32.
Proof.
  assert (Hi : 0 <= 0x80000000 < 2^32) by (vm_compute; split; congruence).
  destruct (proj2 (proj2 bit_scan_of_zero) 0x80000000 Hi) as (Hm & Hl & _).
  split; [exact Hi |]. split.
  - intros H. apply Hm in H. discriminate H.
  - intros H. apply Hl in H. discriminate H.
Defined.

Lemma u32_s32 (x : Z) : u32 (s32 x) = u32 x.
Proof.
  unfold u32, s32. change (2^32) with 4294967296. change (2^31) with 2147483648. zdiv.
Qed.

Lemma u32_shl_int_one (k : Z) : 0 <= k < 32 -> u32 (shl_int 1 k) = 2^k.
Proof.
  intros Hk. unfold shl_int. rewrite u32_s32, Z.shiftl_1_l.
  apply u32_small. split; [lia |]. apply Z.pow_lt_mono_r; lia.
Qed.

(** X4. On a nonzero 32-bit word [lsb] never exceeds [msb], and the two
    agree exactly on the powers of two. Scanning undoes shifting:
    [msb(1 << k)] and [lsb(1 << k)] are [k] for every [k] from 0 to 31. *)
Theorem bit_scan_power_of_two :
  (forall i, 0 < i < 2^32 ->
     Cpu.lsb i <= Cpu.msb i /\
     (Cpu.lsb i = Cpu.msb i <-> exists k, 0 <= k < 32 /\ i = 2^k)) /\
  (forall k, 0 <= k < 32 ->
     Cpu.msb (u32 (shl_int 1 k)) = k /\ Cpu.lsb (u32 (shl_int 1 k)) = k).
Proof.
  assert (Hpow : forall k, 0 <= k < 32 -> Cpu.msb (2^k) = k /\ Cpu.lsb (2^k) = k).
  { intros k Hk.
    assert (Hi : 0 < 2^k < 2^32) by (split; [lia | apply Z.pow_lt_mono_r; lia]).
    destruct (msb_bits _ Hi) as (Hm & Hmset & _).
    destruct (lsb_bits _ Hi) as (Hl & Hlset & _).
    rewrite Z.pow2_bits_eqb in Hmset, Hlset by lia.
    apply Z.eqb_eq in Hmset, Hlset. split; congruence. }
  split.
  - intros i Hi.
    destruct (msb_bits i Hi) as (Hm & Hmset & Habove).
    destruct (lsb_bits i Hi) as (Hl & Hlset & Hbelow).
    assert (Hle : Cpu.lsb i <= Cpu.msb i).
    { destruct (Z_lt_le_dec (Cpu.msb i) (Cpu.lsb i)) as [Hlt | Hok]; [| exact Hok].
      rewrite (Habove _ Hlt) in Hlset. discriminate. }
    split; [exact Hle |]. split.
    + intros Heq. exists (Cpu.msb i). split; [lia |].
      apply Z.bits_inj'. intros n Hn. rewrite Z.pow2_bits_eqb by lia.
      destruct (Z.eqb_spec (Cpu.msb i) n) as [<- | Hne]; [exact Hmset |].
      destruct (Z_lt_le_dec n (Cpu.msb i)) as [Hlt | Hge].
      * apply Hbelow. lia.
      * apply Habove. lia.
    + intros (k & Hk & ->). destruct (Hpow k Hk) as [-> ->]. reflexivity.
  - intros k Hk. rewrite u32_shl_int_one by exact Hk. apply Hpow, Hk.
Qed.

Lemma bit_scan_power_of_two_example :
  (0 < 0x00000600 < 2^32 /\ Cpu.lsb 0x00000600 <= Cpu.msb 0x00000600) /\
  (0 <= 31 < 32 /\ Cpu.msb (u32 (shl_int 1 31)) = 31 /\ Cpu.lsb (u32 (shl_int 1 31)) = 31).
Proof.
  assert (Hi : 0 < 0x00000600 < 2^32) by (vm_compute; split; reflexivity).
  assert (Hk : 0 <= 31 < 32) by lia.
  destruct bit_scan_power_of_two as [Hword Hshift].
  split.
  - split; [exact Hi | exact (proj1 (Hword _ Hi))].
  - split; [exact Hk | exact (Hshift 31 Hk)].
Defined.

(** ** processor.h: model-specific registers *)

Lemma u64_small (x : Z) : 0 <= x < 2^64 -> Cpu.u64 x = x.
Proof. intros H. unfold Cpu.u64. apply Z.mod_small, H. Qed.

(** EDX:EAX put together again, as [rdmsr] does it. *)
Lemma join_halves (low high : Z) :
  0 <= low < 2^32 -> 0 <= high < 2^32 ->
  Z.lor (Cpu.u64 (Z.shiftl (Cpu.u64 high) 32)) (Cpu.u64 low) = high * 2^32 + low.
Proof.
  intros Hl Hh.
  change (2^32) with 4294967296 in *.
  rewrite (u64_small high), (u64_small low)
    by (change (2^64) with 18446744073709551616; lia).
  rewrite Z.shiftl_mul_pow2 by lia. change (2^32) with 4294967296.
  rewrite u64_small by (change (2^64) with 18446744073709551616; lia).
  apply (lor_low_bits _ low 32); [lia | | exact Hl].
  change (2^32) with 4294967296. zdiv.
Qed.

(** The two halves [wrmsr] cuts a 64-bit value into. *)
Lemma split_halves (value : Z) :
  0 <= value < 2^64 ->
  u32 (Z.land (Cpu.u64 value) (Cpu.u64 0xFFFFFFFF)) = value mod 2^32 /\
  u32 (Z.shiftr (Cpu.u64 value) 32) = value / 2^32.
Proof.
  intros Hv. rewrite (u64_small value) by exact Hv.
  change (Cpu.u64 0xFFFFFFFF) with (Z.ones 32).
  rewrite Z.land_ones, Z.shiftr_div_pow2 by lia.
  change (2^64) with 18446744073709551616 in Hv.
  unfold u32. change (2^32) with 4294967296. split; zdiv.
Qed.

(** X5. [rdmsr] after [wrmsr] returns the 64-bit value written, on every
    processor whose register reads back what the write put there: the
    write hands the instruction the register number modulo 2^32 and the
    value cut into EAX and EDX, and joining the halves again loses nothing.
    Two numbers that agree modulo 2^32 name the same register, [msr] being
    a [uint32_t]. *)
Theorem rdmsr_after_wrmsr (hw : Type)
    (insn_rdmsr : Z -> hw -> option ((Z * Z) * hw))
    (insn_wrmsr : Z -> Z -> Z -> hw -> option hw)
    (msr msr' value : Z) (c c1 : hw) :
  0 <= value < 2^64 ->
  msr' mod 2^32 = msr mod 2^32 ->
  Cpu.wrmsr insn_wrmsr msr value c = Some c1 ->
  (forall eax edx, 0 <= eax < 2^32 -> 0 <= edx < 2^32 ->
     insn_wrmsr eax (msr mod 2^32) edx c = Some c1 ->
     insn_rdmsr (msr mod 2^32) c1 = Some ((eax, edx), c1)) ->
  Cpu.rdmsr insn_rdmsr msr' c1 = Some (value, c1) /\
  exists eax edx,
    0 <= eax < 2^32 /\ 0 <= edx < 2^32 /\ edx * 2^32 + eax = value /\
    Cpu.wrmsr insn_wrmsr msr value c = insn_wrmsr eax (msr mod 2^32) edx c.
Proof.
  intros Hv Hid Hwrite Hback.
  destruct (split_halves value Hv) as [Hlow Hhigh].
  assert (Hl : 0 <= value mod 2^32 < 2^32) by (apply Z.mod_pos_bound; lia).
  assert (Hh : 0 <= value / 2^32 < 2^32).
  { change (2^64) with 18446744073709551616 in Hv.
    change (2^32) with 4294967296. zdiv. }
  assert (Hsum : value / 2^32 * 2^32 + value mod 2^32 = value).
  { change (2^32) with 4294967296. zdiv. }
  unfold Cpu.wrmsr in *. rewrite Hlow, Hhigh in *. fold (u32 msr) in *.
  split.
  - unfold Cpu.rdmsr. unfold u32 at 1. rewrite Hid. fold (u32 msr).
    rewrite (Hback _ _ Hl Hh Hwrite).
    rewrite !u32_small by assumption.
    rewrite join_halves by assumption. rewrite Hsum. reflexivity.
  - exists (value mod 2^32), (value / 2^32).
    split_and!; try assumption; try lia. reflexivity.
Qed.

Lemma rdmsr_after_wrmsr_example :
  let c := {| Cpu.core := {| cpu_info := {| feature1 := 0x21; feature2 := 0 |};
                             cr0 := 0x80000011; cr2 := 0; cr3 := 0x1000; cr4 := 0 |};
              Cpu.msrs := fun _ => 0;
              Cpu.tlb := ∅ |} in
  let c1 := {| Cpu.core := Cpu.core c;
               Cpu.msrs := fun k => if k =? 0x1B then 0xFEE0090012345678 else 0;
               Cpu.tlb := ∅ |} in
  0 <= 0xFEE0090012345678 < 2^64 /\
  Cpu.wrmsr Cpu.stored_wrmsr 0x10000001B 0xFEE0090012345678 c = Some c1 /\
  Cpu.rdmsr Cpu.stored_rdmsr 0x1B c1 = Some (0xFEE0090012345678, c1).
Proof.
  intros c c1.
  assert (Hv : 0 <= 0xFEE0090012345678 < 2^64) by (vm_compute; split; congruence).
  assert (Hw : Cpu.wrmsr Cpu.stored_wrmsr 0x10000001B 0xFEE0090012345678 c = Some c1)
    by reflexivity.
  split; [exact Hv |]. split; [exact Hw |].
  refine (proj1 (rdmsr_after_wrmsr Cpu.cpu Cpu.stored_rdmsr Cpu.stored_wrmsr
                   0x10000001B 0x1B 0xFEE0090012345678 c c1 Hv eq_refl Hw _)).
  intros eax edx Hea Hed He.
  apply (f_equal (fun o => match o with Some x => Cpu.msrs x 0x1B | None => 0 end)) in He.
  change (Z.lor (Z.shiftl edx 32) eax = 0xFEE0090012345678) in He.
  rewrite Z.shiftl_mul_pow2 in He by lia.
  rewrite (lor_low_bits _ eax 32) in He;
    [| lia | change (2^32) with 4294967296; zdiv | exact Hea].
  change (2^32) with 4294967296 in *.
  assert (Heax : eax = 0x12345678) by lia.
  assert (Hedx : edx = 0xFEE00900) by lia.
  rewrite Heax, Hedx. reflexivity.
Defined.

(** ** processor.h: control registers and the translation lookaside buffer *)

Lemma write_back_cr3 (m : machine) :
  0 <= cr3 m < 2^32 -> snd (Processor.write_cr3 (cr3 m) m) = m.
Proof.
  intros H. destruct m as [ci r0 r2 r3 r4]. unfold Processor.write_cr3. simpl in *.
  rewrite (u32_small r3 H). reflexivity.
Qed.

(** X6. [flush_tlb] leaves every control register, [cpu_info] and every
    model-specific register as they were, since it writes back to CR3 what
    it read there. When CR3 is 0 it does nothing at all, no translation is
    invalidated; otherwise the translations cached afterwards are exactly
    the global ones cached before. *)
Theorem flush_tlb_effect (c : Cpu.cpu) :
  0 <= cr3 (Cpu.core c) < 2^32 ->
  Cpu.core (snd (Cpu.flush_tlb c)) = Cpu.core c /\
  Cpu.msrs (snd (Cpu.flush_tlb c)) = Cpu.msrs c /\
  (cr3 (Cpu.core c) = 0 -> Cpu.tlb (snd (Cpu.flush_tlb c)) = Cpu.tlb c) /\
  (cr3 (Cpu.core c) <> 0 ->
   forall pg e, Cpu.tlb (snd (Cpu.flush_tlb c)) !! pg = Some e <->
                Cpu.tlb c !! pg = Some e /\ snd e = true).
Proof.
  intros Hcr3. unfold Cpu.flush_tlb, Cpu.lift, Processor.read_cr3.
  destruct (Z.eqb_spec (cr3 (Cpu.core c)) 0) as [Hz | Hnz]; cbn [snd].
  - split; [reflexivity |]. split; [reflexivity |].
    split; [intros _; reflexivity | intros Hne; contradiction].
  - unfold Cpu.write_cr3, Cpu.lift. cbn [Cpu.core Cpu.msrs Cpu.tlb].
    pose proof (write_back_cr3 (Cpu.core c) Hcr3) as Hback.
    destruct (Processor.write_cr3 (cr3 (Cpu.core c)) (Cpu.core c)) as [u m] eqn:Hw.
    cbn [snd] in Hback. subst m. cbn [snd Cpu.core Cpu.msrs Cpu.tlb].
    split; [reflexivity |]. split; [reflexivity |].
    split; [intros Hz; contradiction |].
    intros _ pg e. rewrite map_lookup_filter_Some. reflexivity.
Qed.

Lemma flush_tlb_effect_example :
  let m := {| cpu_info := {| feature1 := 0x21; feature2 := 0 |};
              cr0 := 0x80000011; cr2 := 0; cr3 := 0x1000; cr4 := 0x80 |} in
  let c := {| Cpu.core := m; Cpu.msrs := fun _ => 0;
              Cpu.tlb := <[0x40000 := (0x00100000, false)]>
                           (<[0x00100 := (0x00300000, true)]> ∅) |} in
  0 <= cr3 (Cpu.core c) < 2^32 /\ cr3 (Cpu.core c) <> 0 /\
  Cpu.core (snd (Cpu.flush_tlb c)) = m /\
  Cpu.tlb (snd (Cpu.flush_tlb c)) !! 0x00100 = Some (0x00300000, true) /\
  Cpu.tlb (snd (Cpu.flush_tlb c)) !! 0x40000 = None.
Proof.
  intros m c.
  assert (Hr : 0 <= cr3 (Cpu.core c) < 2^32) by (vm_compute; split; congruence).
  assert (Hnz : cr3 (Cpu.core c) <> 0) by (vm_compute; congruence).
  destruct (flush_tlb_effect c Hr) as (Hcore & _ & _ & Htlb).
  split; [exact Hr |]. split; [exact Hnz |]. split; [exact Hcore |].
  split.
  - apply (Htlb Hnz). split; [vm_compute; reflexivity | reflexivity].
  - destruct (Cpu.tlb (snd (Cpu.flush_tlb c)) !! 0x40000) as [e|] eqn:He; [| reflexivity].
    apply (Htlb Hnz) in He. destruct He as [Hin Hglobal].
    vm_compute in Hin. injection Hin as <-. discriminate Hglobal.
Defined.

(** ** processor.h: what a feature accessor returns *)

Lemma and_u32_masked_bit (x mask k : Z) :
  0 <= k < 32 -> u32 mask = 2^k -> and_u32 x mask = Cpu.masked_bit x k.
Proof.
  intros Hk Hmask. unfold and_u32, Cpu.masked_bit. rewrite Hmask.
  apply Z.bits_inj'. intros n Hn.
  rewrite Z.land_spec, testbit_u32, Z.pow2_bits_eqb by lia.
  destruct (Z.eqb_spec k n) as [<- | Hne].
  - destruct (Z.ltb_spec k 32) as [_ | Hge]; [| lia].
    destruct (Z.testbit x k).
    + rewrite Z.pow2_bits_true by lia. reflexivity.
    + rewrite Z.bits_0. reflexivity.
  - rewrite andb_false_r.
    destruct (Z.testbit x k).
    + rewrite Z.pow2_bits_false by lia. reflexivity.
    + rewrite Z.bits_0. reflexivity.
Qed.

(** X8. A feature accessor returns the masked word, not a truth value: 0
    when its bit is clear and the mask 2^k itself when it is set, up to
    0x80000000 for [on_hypervisor]. Of the nine only [has_fpu] can
    return 1. *)
Theorem feature_accessor_values (m : machine) :
  fst (has_fpu m) = Cpu.masked_bit (feature1 (cpu_info m)) 0 /\
  fst (has_msr m) = Cpu.masked_bit (feature1 (cpu_info m)) 5 /\
  fst (has_apic m) = Cpu.masked_bit (feature1 (cpu_info m)) 9 /\
  fst (has_fxsr m) = Cpu.masked_bit (feature1 (cpu_info m)) 24 /\
  fst (has_sse m) = Cpu.masked_bit (feature1 (cpu_info m)) 25 /\
  fst (has_sse2 m) = Cpu.masked_bit (feature1 (cpu_info m)) 26 /\
  fst (has_x2apic m) = Cpu.masked_bit (feature2 (cpu_info m)) 21 /\
  fst (has_avx m) = Cpu.masked_bit (feature2 (cpu_info m)) 28 /\
  fst (on_hypervisor m) = Cpu.masked_bit (feature2 (cpu_info m)) 31 /\
  Forall (fun acc : M Z => fst (acc m) <> 1)
    [has_msr; has_apic; has_fxsr; has_sse; has_sse2; has_x2apic; has_avx; on_hypervisor].
Proof.
  assert (Hval : forall (field : cpu_info_t -> Z) mask k, 0 <= k < 32 -> u32 mask = 2^k ->
            fst (bind load_cpu_info (fun ci => ret (and_u32 (field ci) mask)) m)
            = Cpu.masked_bit (field (cpu_info m)) k).
  { intros field mask k Hk Hmask. unfold bind, load_cpu_info, ret. cbn [fst].
    apply and_u32_masked_bit; assumption. }
  assert (Hne : forall w k, 0 < k < 32 -> Cpu.masked_bit w k <> 1).
  { intros w k Hk. unfold Cpu.masked_bit. destruct (Z.testbit w k); [| lia].
    assert (2^1 <= 2^k) by (apply Z.pow_le_mono_r; lia). lia. }
  assert (H5 : fst (has_msr m) = Cpu.masked_bit (feature1 (cpu_info m)) 5)
    by (apply Hval; [lia | reflexivity]).
  assert (H9 : fst (has_apic m) = Cpu.masked_bit (feature1 (cpu_info m)) 9)
    by (apply Hval; [lia | reflexivity]).
  assert (H24 : fst (has_fxsr m) = Cpu.masked_bit (feature1 (cpu_info m)) 24)
    by (apply Hval; [lia | reflexivity]).
  assert (H25 : fst (has_sse m) = Cpu.masked_bit (feature1 (cpu_info m)) 25)
    by (apply Hval; [lia | reflexivity]).
  assert (H26 : fst (has_sse2 m) = Cpu.masked_bit (feature1 (cpu_info m)) 26)
    by (apply Hval; [lia | reflexivity]).
  assert (H21 : fst (has_x2apic m) = Cpu.masked_bit (feature2 (cpu_info m)) 21)
    by (apply Hval; [lia | reflexivity]).
  assert (H28 : fst (has_avx m) = Cpu.masked_bit (feature2 (cpu_info m)) 28)
    by (apply Hval; [lia | reflexivity]).
  assert (H31 : fst (on_hypervisor m) = Cpu.masked_bit (feature2 (cpu_info m)) 31)
    by (apply Hval; [lia | reflexivity]).
  split; [apply Hval; [lia | reflexivity] |].
  split_and!; try assumption.
  repeat (apply List.Forall_cons; [cbv beta |]); try apply List.Forall_nil.
  - rewrite H5. apply Hne. lia.
  - rewrite H9. apply Hne. lia.
  - rewrite H24. apply Hne. lia.
  - rewrite H25. apply Hne. lia.
  - rewrite H26. apply Hne. lia.
  - rewrite H21. apply Hne. lia.
  - rewrite H28. apply Hne. lia.
  - rewrite H31. apply Hne. lia.
Qed.

(** ** page.h: the rounding macros together *)

Lemma PAGE_CEIL_range (addr : Z) : 0 <= addr < 2^32 -> 0 <= PAGE_CEIL addr < 2^32.
Proof.
  intros Ha. rewrite PAGE_CEIL_div by exact Ha.
  change (2^32) with 4294967296 in *. zdiv.
Qed.

Lemma PAGE_FLOOR_range (addr : Z) : 0 <= addr < 2^32 -> 0 <= PAGE_FLOOR addr < 2^32.
Proof.
  intros Ha. rewrite PAGE_FLOOR_div by exact Ha.
  change (2^32) with 4294967296 in *. zdiv.
Qed.

(** X9. Rounding is idempotent and the two macros absorb each other: on a
    32-bit address, rounding an already rounded address with either macro
    changes nothing, also where [PAGE_FLOOR] wrapped around to 0. *)
Theorem page_rounding_idempotent (addr : Z) :
  0 <= addr < 2^32 ->
  PAGE_CEIL (PAGE_CEIL addr) = PAGE_CEIL addr /\
  PAGE_FLOOR (PAGE_FLOOR addr) = PAGE_FLOOR addr /\
  PAGE_FLOOR (PAGE_CEIL addr) = PAGE_CEIL addr /\
  PAGE_CEIL (PAGE_FLOOR addr) = PAGE_FLOOR addr.
Proof.
  intros Ha.
  pose proof (PAGE_CEIL_range addr Ha) as Hc.
  pose proof (PAGE_FLOOR_range addr Ha) as Hf.
  rewrite (PAGE_CEIL_div (PAGE_CEIL addr) Hc), (PAGE_FLOOR_div (PAGE_FLOOR addr) Hf),
    (PAGE_FLOOR_div (PAGE_CEIL addr) Hc), (PAGE_CEIL_div (PAGE_FLOOR addr) Hf).
  rewrite (PAGE_CEIL_div addr Ha), (PAGE_FLOOR_div addr Ha).
  change (2^32) with 4294967296 in *.
  split_and!; zdiv.
Qed.

Lemma page_rounding_idempotent_example :
  0 <= 0xFFFFF234 < 2^32 /\
  PAGE_FLOOR 0xFFFFF234 = 0 /\ PAGE_FLOOR (PAGE_FLOOR 0xFFFFF234) = PAGE_FLOOR 0xFFFFF234 /\
  PAGE_FLOOR (PAGE_CEIL 0xFFFFF234) = 0xFFFFF000.
Proof.
  assert (Ha : 0 <= 0xFFFFF234 < 2^32) by (vm_compute; split; congruence).
  destruct (page_rounding_idempotent 0xFFFFF234 Ha) as (_ & Hff & Hfc & _).
  split; [exact Ha |]. split; [reflexivity |]. split; [exact Hff | exact Hfc].
Defined.

(** X10. The addresses either macro leaves alone are exactly the
    page-aligned ones. An address is its rounded-down base plus its low
    twelve bits, and up to 0xFFFFF000 the two roundings are equal on an
    aligned address and one page apart on any other. *)
Theorem page_rounding_fixed_points (addr : Z) :
  0 <= addr < 2^32 ->
  (PAGE_CEIL addr = addr <-> addr mod PAGE_SIZE = 0) /\
  (PAGE_FLOOR addr = addr <-> addr mod PAGE_SIZE = 0) /\
  addr = PAGE_CEIL addr + and_u32 addr (PAGE_SIZE - 1) /\
  (addr <= 0xFFFFF000 ->
   PAGE_FLOOR addr - PAGE_CEIL addr = if addr mod PAGE_SIZE =? 0 then 0 else PAGE_SIZE).
Proof.
  intros Ha.
  rewrite (PAGE_CEIL_div addr Ha), (PAGE_FLOOR_div addr Ha).
  assert (Hlow : and_u32 addr (PAGE_SIZE - 1) = addr mod 4096).
  { unfold and_u32. rewrite (u32_small addr Ha).
    change (u32 (PAGE_SIZE - 1)) with (Z.ones 12). apply Z.land_ones. lia. }
  rewrite Hlow. change PAGE_SIZE with 4096.
  change (2^32) with 4294967296 in *.
  split_and!; try (split; intros; zdiv); try zdiv.
  intros Hle. destruct (Z.eqb_spec (addr mod 4096) 0); zdiv.
Qed.

Lemma page_rounding_fixed_points_example :
  0 <= 0x00101234 < 2^32 /\ 0x00101234 <= 0xFFFFF000 /\
  PAGE_FLOOR 0x00101234 - PAGE_CEIL 0x00101234 = PAGE_SIZE /\
  0x00101234 = PAGE_CEIL 0x00101234 + and_u32 0x00101234 (PAGE_SIZE - 1).
Proof.
  assert (Ha : 0 <= 0x00101234 < 2^32) by (vm_compute; split; congruence).
  assert (Hle : 0x00101234 <= 0xFFFFF000) by (vm_compute; congruence).
  destruct (page_rounding_fixed_points 0x00101234 Ha) as (_ & _ & Hsum & Hgap).
  split; [exact Ha |]. split; [exact Hle |]. split; [exact (Hgap Hle) | exact Hsum].
Defined.

(** X11. Rounding keeps the order of addresses: [PAGE_CEIL] always, and
    [PAGE_FLOOR] as long as the larger address is at most 0xFFFFF000. *)
Theorem page_rounding_monotone (a b : Z) :
  0 <= a -> a <= b -> b < 2^32 ->
  PAGE_CEIL a <= PAGE_CEIL b /\
  (b <= 0xFFFFF000 -> PAGE_FLOOR a <= PAGE_FLOOR b).
Proof.
  intros Ha Hab Hb.
  rewrite (PAGE_CEIL_div a), (PAGE_CEIL_div b), (PAGE_FLOOR_div a), (PAGE_FLOOR_div b) by lia.
  change (2^32) with 4294967296 in *.
  split; [zdiv | intros Hle; zdiv].
Qed.

Lemma page_rounding_monotone_example :
  PAGE_CEIL 0x1FFF <= PAGE_CEIL 0x2000 /\ PAGE_FLOOR 0x1FFF <= PAGE_FLOOR 0x2000.
Proof.
  destruct (page_rounding_monotone 0x1FFF 0x2000) as [Hc Hf];
    try (vm_compute; congruence).
  split; [exact Hc |]. apply Hf. vm_compute. congruence.
Defined.

(** ** page.h: Entries built from the flag masks *)

Lemma entry_flag_mask_bit (m : Z) :
  m ∈ entry_flag_masks -> exists j, 0 <= j < 10 /\ m = 2^j.
Proof.
  unfold entry_flag_masks. intros H.
  repeat (apply elem_of_cons in H as [-> | H];
          [first [ exists 0; split; [lia | reflexivity] | exists 1; split; [lia | reflexivity]
                 | exists 2; split; [lia | reflexivity] | exists 3; split; [lia | reflexivity]
                 | exists 4; split; [lia | reflexivity] | exists 5; split; [lia | reflexivity]
                 | exists 6; split; [lia | reflexivity] | exists 7; split; [lia | reflexivity]
                 | exists 8; split; [lia | reflexivity] | exists 9; split; [lia | reflexivity] ] |]).
  apply elem_of_nil in H. destruct H.
Qed.

Lemma testbit_PAGE_CEIL (x n : Z) :
  Z.testbit (PAGE_CEIL x) n = Z.testbit x n && ((12 <=? n) && (n <? 32)).
Proof.
  unfold PAGE_CEIL, and_u32. change (u32 PAGE_MASK) with PAGE_MASK.
  rewrite Z.land_spec, testbit_u32, testbit_PAGE_MASK.
  destruct (Z.testbit x n), (12 <=? n), (n <? 32); reflexivity.
Qed.

(** X12. The flag masks are independent: or-ing one of the ten masks into
    an Entry sets that flag, and-ing with its complement clears it, and
    either way every other flag and the address bits under [PAGE_MASK]
    stay as they were. *)
Theorem entry_flags_independent (m1 m2 : Z) (e : page_entry_t) :
  m1 ∈ entry_flag_masks -> m2 ∈ entry_flag_masks ->
  has_flag m1 (Z.lor e m2) = has_flag m1 e || bool_decide (m1 = m2) /\
  has_flag m1 (and_u32 e (Z.lnot m2)) = has_flag m1 e && negb (bool_decide (m1 = m2)) /\
  PAGE_CEIL (Z.lor e m2) = PAGE_CEIL e /\
  PAGE_CEIL (and_u32 e (Z.lnot m2)) = PAGE_CEIL e.
Proof.
  intros H1 H2.
  destruct (entry_flag_mask_bit m1 H1) as (j & Hj & ->).
  destruct (entry_flag_mask_bit m2 H2) as (k & Hk & ->).
  assert (Hdec : bool_decide (2^j = 2^k) = (k =? j)).
  { destruct (Z.eqb_spec k j) as [-> | Hne].
    - apply bool_decide_eq_true. reflexivity.
    - apply bool_decide_eq_false. intros Heq. apply Hne.
      symmetry. apply (Z.pow_inj_r 2); lia. }
  rewrite Hdec, !has_flag_pow2 by lia.
  split_and!.
  - rewrite Z.lor_spec, Z.pow2_bits_eqb by lia. reflexivity.
  - unfold and_u32. rewrite Z.land_spec, !testbit_u32, Z.lnot_spec, Z.pow2_bits_eqb by lia.
    destruct (Z.ltb_spec j 32); [| lia].
    destruct (Z.testbit e j), (k =? j); reflexivity.
  - apply Z.bits_inj'. intros n Hn.
    rewrite !testbit_PAGE_CEIL, Z.lor_spec, Z.pow2_bits_eqb by lia.
    destruct (Z.leb_spec 12 n) as [H12 | H12]; [| rewrite !andb_false_r; reflexivity].
    destruct (Z.eqb_spec k n) as [-> | _]; [lia |]. rewrite orb_false_r. reflexivity.
  - apply Z.bits_inj'. intros n Hn.
    rewrite !testbit_PAGE_CEIL. unfold and_u32.
    rewrite Z.land_spec, !testbit_u32, Z.lnot_spec, Z.pow2_bits_eqb by lia.
    destruct (Z.leb_spec 12 n) as [H12 | H12]; [| rewrite !andb_false_r; reflexivity].
    destruct (Z.eqb_spec k n) as [-> | _]; [lia |].
    destruct (Z.testbit e n), (n <? 32); reflexivity.
Qed.

Lemma entry_flags_independent_example :
  PG_USER ∈ entry_flag_masks /\ PG_RW ∈ entry_flag_masks /\
  has_flag PG_USER (Z.lor 0x00100001 PG_RW) = false /\
  has_flag PG_RW (and_u32 0x00100003 (Z.lnot PG_RW)) = false /\
  PAGE_CEIL (Z.lor 0x00100001 PG_RW) = PAGE_CEIL 0x00100001.
Proof.
  assert (Hu : PG_USER ∈ entry_flag_masks)
    by (apply (bool_decide_unpack _); vm_compute; reflexivity).
  assert (Hw : PG_RW ∈ entry_flag_masks)
    by (apply (bool_decide_unpack _); vm_compute; reflexivity).
  destruct (entry_flags_independent PG_USER PG_RW 0x00100001 Hu Hw) as (Hset & _ & Haddr & _).
  destruct (entry_flags_independent PG_RW PG_RW 0x00100003 Hw Hw) as (_ & Hclear & _ & _).
  split; [exact Hu |]. split; [exact Hw |].
  split; [exact Hset |]. split; [exact Hclear | exact Haddr].
Defined.

(** The bits of a set of flags or-ed together. *)
Lemma flags_testbit (fs : list Z) (n : Z) :
  (forall m, m ∈ fs -> m ∈ entry_flag_masks) -> 0 <= n ->
  Z.testbit (foldr Z.lor 0 fs) n = bool_decide (2^n ∈ fs).
Proof.
  intros Hfs Hn. induction fs as [|m fs IH]; cbn [foldr].
  - rewrite Z.bits_0. symmetry. apply bool_decide_eq_false. apply not_elem_of_nil.
  - rewrite Z.lor_spec, IH by (intros m' Hm'; apply Hfs; right; exact Hm').
    destruct (entry_flag_mask_bit m (Hfs m ltac:(left))) as (j & Hj & ->).
    rewrite Z.pow2_bits_eqb by lia.
    destruct (Z.eqb_spec j n) as [-> | Hne]; cbn [orb].
    + symmetry. apply bool_decide_eq_true. left.
    + destruct (bool_decide (2^n ∈ fs)) eqn:Hin.
      * symmetry. apply bool_decide_eq_true. right.
        apply bool_decide_eq_true in Hin. exact Hin.
      * symmetry. apply bool_decide_eq_false. intros Hcons.
        apply elem_of_cons in Hcons as [Heq | Hrest].
        -- apply Hne. symmetry. apply (Z.pow_inj_r 2); lia.
        -- apply bool_decide_eq_false in Hin. exact (Hin Hrest).
Qed.

Lemma flags_high_bits (fs : list Z) (n : Z) :
  (forall m, m ∈ fs -> m ∈ entry_flag_masks) -> 10 <= n ->
  Z.testbit (foldr Z.lor 0 fs) n = false.
Proof.
  intros Hfs Hn. rewrite flags_testbit by (assumption || lia).
  apply bool_decide_eq_false. intros Hin.
  destruct (entry_flag_mask_bit _ (Hfs _ Hin)) as (j & Hj & Heq).
  apply (Z.pow_inj_r 2) in Heq; lia.
Qed.

(** X13. An Entry round trip: or a page-aligned 32-bit address with any
    set of the ten flags; then [PAGE_CEIL], the mask [PAGE_MASK], gives the
    address back, the low twelve bits are the flags, and a flag of the ten
    tests as set exactly when it was in the set. *)
Theorem entry_round_trip (addr : Z) (fs : list Z) :
  0 <= addr < 2^32 -> addr mod PAGE_SIZE = 0 ->
  (forall m, m ∈ fs -> m ∈ entry_flag_masks) ->
  PAGE_CEIL (Z.lor addr (foldr Z.lor 0 fs)) = addr /\
  and_u32 (Z.lor addr (foldr Z.lor 0 fs)) (PAGE_SIZE - 1) = foldr Z.lor 0 fs /\
  forall m, m ∈ entry_flag_masks ->
    has_flag m (Z.lor addr (foldr Z.lor 0 fs)) = bool_decide (m ∈ fs).
Proof.
  intros Ha Hal Hfs. change PAGE_SIZE with (2^12) in Hal.
  split_and!.
  - apply Z.bits_inj'. intros n Hn.
    rewrite testbit_PAGE_CEIL, Z.lor_spec.
    destruct (Z.leb_spec 12 n) as [H12 | H12], (Z.ltb_spec n 32) as [H32 | H32]; cbn [andb];
      rewrite ?andb_false_r, ?andb_true_r.
    + rewrite flags_high_bits by (assumption || lia). apply orb_false_r.
    + symmetry. apply (testbit_above addr 32); assumption.
    + symmetry. apply (testbit_below addr 12); [exact Hal | lia].
    + lia.
  - unfold and_u32. change (u32 (PAGE_SIZE - 1)) with (Z.ones 12).
    apply Z.bits_inj'. intros n Hn.
    rewrite Z.land_spec, testbit_u32, Z.lor_spec, Z.testbit_ones_nonneg by lia.
    destruct (Z.ltb_spec n 12) as [H12 | H12].
    + rewrite (testbit_below addr 12 n) by (assumption || lia).
      destruct (Z.ltb_spec n 32); [| lia]. cbn [orb]. rewrite !andb_true_r. reflexivity.
    + rewrite flags_high_bits by (assumption || lia). apply andb_false_r.
  - intros m Hm. destruct (entry_flag_mask_bit m Hm) as (j & Hj & ->).
    rewrite has_flag_pow2, Z.lor_spec by lia.
    rewrite (testbit_below addr 12 j) by (assumption || lia).
    apply flags_testbit; [exact Hfs | lia].
Qed.

Lemma entry_round_trip_example :
  0 <= 0x00100000 < 2^32 /\ 0x00100000 mod PAGE_SIZE = 0 /\
  PAGE_CEIL (Z.lor 0x00100000 (foldr Z.lor 0 [PG_PRESENT; PG_RW; PG_USER])) = 0x00100000 /\
  has_flag PG_USER (Z.lor 0x00100000 (foldr Z.lor 0 [PG_PRESENT; PG_RW; PG_USER])) = true /\
  has_flag PG_GLOBAL (Z.lor 0x00100000 (foldr Z.lor 0 [PG_PRESENT; PG_RW; PG_USER])) = false.
Proof.
  assert (Ha : 0 <= 0x00100000 < 2^32) by (vm_compute; split; congruence).
  assert (Hal : 0x00100000 mod PAGE_SIZE = 0) by reflexivity.
  assert (Hfs : forall m, m ∈ [PG_PRESENT; PG_RW; PG_USER] -> m ∈ entry_flag_masks).
  { apply Forall_forall. apply (bool_decide_unpack _). vm_compute. reflexivity. }
  destruct (entry_round_trip 0x00100000 [PG_PRESENT; PG_RW; PG_USER] Ha Hal Hfs)
    as (Haddr & _ & Hflags).
  split; [exact Ha |]. split; [exact Hal |]. split; [exact Haddr |].
  split.
  - rewrite Hflags by (apply (bool_decide_unpack _); vm_compute; reflexivity).
    vm_compute. reflexivity.
  - rewrite Hflags by (apply (bool_decide_unpack _); vm_compute; reflexivity).
    vm_compute. reflexivity.
Defined.
